(** * Daily Word game backend: the game logic of [app/routes/game.py]

    A shallow embedding of the word selection, the scoring of a guess and the
    per-session, per-day attempt state machine, with the properties the
    specification states about them. *)

From Stdlib Require Import ZArith String Ascii List Lia Bool.
From stdpp Require Import base option list gmap strings.

Local Open Scope string_scope.
Local Open Scope list_scope.
Local Open Scope nat_scope.
Local Open Scope stdpp_scope.

(** * Python values used by the module *)

(** ** [str]

    A Python [str] is modelled as a Rocq [string] of ASCII characters (code
    points below 128), the range the word list and the date keys live in.
    The 128 other values of [ascii] are outside the model: the predicates
    below class them as neither letters nor white space, and [upper] leaves
    them alone. *)
Module Str.

Definition code (c : ascii) : nat := nat_of_ascii c.

(** [c.isspace()]: TAB, LF, VT, FF, CR, the separators FS GS RS US, and
    the space. *)
Definition char_isspace (c : ascii) : bool :=
  ((9 <=? code c) && (code c <=? 13)) || ((28 <=? code c) && (code c <=? 32)).

Definition char_isupper (c : ascii) : bool :=
  (65 <=? code c) && (code c <=? 90).

Definition char_islower (c : ascii) : bool :=
  (97 <=? code c) && (code c <=? 122).

(** [c.isalpha()] *)
Definition char_isalpha (c : ascii) : bool :=
  char_isupper c || char_islower c.

(** [c.upper()] *)
Definition char_upper (c : ascii) : ascii :=
  if char_islower c then ascii_of_nat (code c - 32) else c.

(** [list(s)] *)
Definition chars (s : string) : list ascii := list_ascii_of_string s.

(** [len(s)] *)
Definition len (s : string) : nat := String.length s.

(** [s.upper()] *)
Fixpoint upper (s : string) : string :=
  match s with
  | EmptyString => EmptyString
  | String c s' => String (char_upper c) (upper s')
  end.

(** [s.isalpha()]: every character is a letter and there is at least one. *)
Fixpoint all_alpha (s : string) : bool :=
  match s with
  | EmptyString => true
  | String c s' => char_isalpha c && all_alpha s'
  end.

Definition isalpha (s : string) : bool :=
  match s with
  | EmptyString => false
  | _ => all_alpha s
  end.

(** [s.lstrip()], [s.rstrip()] and [s.strip()] with no argument. *)
Fixpoint lstrip (s : string) : string :=
  match s with
  | EmptyString => EmptyString
  | String c s' => if char_isspace c then lstrip s' else s
  end.

Fixpoint rstrip (s : string) : string :=
  match s with
  | EmptyString => EmptyString
  | String c s' =>
      match rstrip s' with
      | EmptyString => if char_isspace c then EmptyString else String c EmptyString
      | t => String c t
      end
  end.

Definition strip (s : string) : string := rstrip (lstrip s).

End Str.

(** [s.encode("utf-8")], bytes as integers below 256: an ASCII character
    is one byte, its code. *)
Definition encode_utf8 (s : string) : list Z :=
  map (λ c, Z.of_nat (Str.code c)) (Str.chars s).

(** Value of one digit of [int(s, 16)]. *)
Definition hex_value (c : ascii) : option Z :=
  let n := Z.of_nat (Str.code c) in
  if ((48 <=? n) && (n <=? 57))%Z then Some (n - 48)%Z
  else if ((97 <=? n) && (n <=? 102))%Z then Some (n - 87)%Z
  else if ((65 <=? n) && (n <=? 70))%Z then Some (n - 55)%Z
  else None.

Fixpoint int16_from (acc : Z) (s : string) : option Z :=
  match s with
  | EmptyString => Some acc
  | String c s' => d ← hex_value c; int16_from (16 * acc + d)%Z s'
  end.

(** [int(s, 16)] on a string of hexadecimal digits, the only form
    [hexdigest] produces; an empty string or any other character is the
    [ValueError], here [None] (signs, prefixes, underscores and surrounding
    white space, which [int] also reads, are not modelled). *)
Definition int16 (s : string) : option Z :=
  match s with
  | EmptyString => None
  | _ => int16_from 0 s
  end.

(** A byte, as an integer. *)
Definition is_byte (b : Z) : Prop := (0 ≤ b < 256)%Z.

(** ** [hashlib.sha256]

    The hash function of FIPS 180-4 on 32-bit words held in [Z]. *)
Module Sha256.
Local Open Scope Z_scope.

Definition wrap (x : Z) : Z := x mod 2 ^ 32.
Definition add32 (x y : Z) : Z := wrap (x + y).
Definition rotr (n x : Z) : Z :=
  Z.lor (Z.shiftr x n) (wrap (Z.shiftl x (32 - n))).
Definition shr (n x : Z) : Z := Z.shiftr x n.
Definition not32 (x : Z) : Z := Z.lxor x 0xffffffff.

Definition Ch (x y z : Z) : Z := Z.lxor (Z.land x y) (Z.land (not32 x) z).
Definition Maj (x y z : Z) : Z :=
  Z.lxor (Z.lxor (Z.land x y) (Z.land x z)) (Z.land y z).
Definition Sigma0 (x : Z) : Z := Z.lxor (Z.lxor (rotr 2 x) (rotr 13 x)) (rotr 22 x).
Definition Sigma1 (x : Z) : Z := Z.lxor (Z.lxor (rotr 6 x) (rotr 11 x)) (rotr 25 x).
Definition sigma0 (x : Z) : Z := Z.lxor (Z.lxor (rotr 7 x) (rotr 18 x)) (shr 3 x).
Definition sigma1 (x : Z) : Z := Z.lxor (Z.lxor (rotr 17 x) (rotr 19 x)) (shr 10 x).

(** The first [n] primes among the numbers from 2 up to [bound]. *)
Definition is_prime (p : nat) : bool :=
  forallb (λ d, negb (p mod d =? 0)%nat) (seq 2 (p - 2)).

Definition primes (n bound : nat) : list Z :=
  map Z.of_nat (firstn n (List.filter is_prime (seq 2 (bound - 1)))).

(** The largest [r] with [lo ≤ r < hi] and [r ^ 3 ≤ x], by bisection. *)
Fixpoint cube_root_in (steps : nat) (lo hi x : Z) : Z :=
  match steps with
  | O => lo
  | S steps' =>
      let mid := (lo + hi) / 2 in
      if mid ^ 3 <=? x then cube_root_in steps' mid hi x
      else cube_root_in steps' lo mid x
  end.

(** The first 32 bits of the fractional part of the cube root of [p]. *)
Definition cube_root_bits (p : Z) : Z :=
  wrap (cube_root_in 48 0 (2 ^ 48) (Z.shiftl p 96)).

(** The first 32 bits of the fractional part of the square root of [p]. *)
Definition square_root_bits (p : Z) : Z := wrap (Z.sqrt (Z.shiftl p 64)).

(** The round constants: from the cube roots of the first 64 primes. *)
Definition K : list Z := Eval vm_compute in map cube_root_bits (primes 64 311).

(** The initial hash value: from the square roots of the first 8 primes. *)
Definition H0 : list Z := Eval vm_compute in map square_root_bits (primes 8 19).

(** The [n] low bytes of [x], most significant first. *)
Fixpoint be_bytes (n : nat) (x : Z) : list Z :=
  match n with
  | O => []
  | S n' => (Z.shiftr x (8 * Z.of_nat n')) mod 256 :: be_bytes n' x
  end.

(** The integer a byte sequence spells, most significant byte first. *)
Definition be_int (bs : list Z) : Z := fold_left (λ acc b, 256 * acc + b) bs 0.

(** Padding: the bit 1, zeros up to 56 modulo 64, the bit length on 8 bytes. *)
Definition pad (msg : list Z) : list Z :=
  let len := Z.of_nat (length msg) in
  msg ++ [0x80] ++ replicate (Z.to_nat ((55 - len) mod 64)) 0 ++ be_bytes 8 (8 * len).

(** The sixteen words of a 64-byte block. *)
Definition block_words (block : list Z) : list Z :=
  map (λ i, be_int (firstn 4 (skipn (4 * i) block))) (seq 0 16).

(** Message schedule: [n] more words after the ones in [w]. *)
Fixpoint schedule (n : nat) (w : list Z) : list Z :=
  match n with
  | O => w
  | S n' =>
      let t := length w in
      let at_ k := nth (t - k) w 0 in
      schedule n' (w ++ [add32 (add32 (sigma1 (at_ 2%nat)) (at_ 7%nat))
                               (add32 (sigma0 (at_ 15%nat)) (at_ 16%nat))])
  end.

Definition round (v : list Z) (kw : Z * Z) : list Z :=
  match v with
  | [a; b; c; d; e; f; g; h] =>
      let T1 := add32 (add32 (add32 h (Sigma1 e)) (add32 (Ch e f g) kw.1)) kw.2 in
      let T2 := add32 (Sigma0 a) (Maj a b c) in
      [add32 T1 T2; a; b; c; add32 d T1; e; f; g]
  | _ => v
  end.

Definition compress (H : list Z) (block : list Z) : list Z :=
  let W := schedule 48 (block_words block) in
  zip_with add32 H (fold_left round (combine K W) H).

Definition digest (msg : list Z) : list Z :=
  let padded := pad msg in
  let H := fold_left (λ H i, compress H (firstn 64 (skipn (64 * i) padded)))
                     (seq 0 (length padded / 64)%nat) H0 in
  flat_map (be_bytes 4) H.

Definition hex_digit (d : Z) : ascii :=
  nth (Z.to_nat d) (Str.chars "0123456789abcdef") "0"%char.

Fixpoint hex (bs : list Z) : string :=
  match bs with
  | [] => EmptyString
  | b :: bs' => String (hex_digit (b / 16)) (String (hex_digit (b mod 16)) (hex bs'))
  end.

(** [hashlib.sha256(msg).hexdigest()] *)
Definition hexdigest (msg : list Z) : string := hex (digest msg).

End Sha256.

(** ** [list]

    Index assignment and [index] raise on a bad index or a missing element;
    that is the [None] of these functions. *)

(** [l[i] = x] *)
Definition list_set {A} (l : list A) (i : nat) (x : A) : option (list A) :=
  if decide (i < length l) then Some (<[i:=x]> l) else None.

(** [x in l] *)
Fixpoint list_in {A} `{EqDecision A} (x : A) (l : list A) : bool :=
  match l with
  | [] => false
  | y :: l' => if decide (y = x) then true else list_in x l'
  end.

(** [l.index(x)] *)
Fixpoint list_index {A} `{EqDecision A} (x : A) (l : list A) : option nat :=
  match l with
  | [] => None
  | y :: l' => if decide (y = x) then Some 0 else S <$> list_index x l'
  end.

(** [for i, ch in enumerate(l): st = body st i ch], where the body may raise;
    [i] counts from [start]. *)
Fixpoint for_enumerate_from {A St} (body : St → nat → A → option St)
    (start : nat) (l : list A) (st : St) : option St :=
  match l with
  | [] => Some st
  | ch :: l' => st' ← body st start ch; for_enumerate_from body (S start) l' st'
  end.

Definition for_enumerate {A St} (body : St → nat → A → option St)
    (l : list A) (st : St) : option St :=
  for_enumerate_from body 0 l st.

(** * Constants of the module *)

Definition WORD_LIST : list string :=
  [ "OCEANS"; "CORALS"; "PEARLS"; "SAILOR"; "MARINE"; "BUBBLE"; "DOLPHN"; "ANCHOR";
    "TIDESY"; "REEFUS"; "SEABED"; "BRIGHT"; "PURPLE"; "PINKER"; "SMOOTH"; "STREAM";
    "GLOWER"; "WAVING"; "SPRITZ"; "VIVIFY" ].

Definition MAX_ATTEMPTS : nat := 5.
Definition WORD_LENGTH : nat := 6.

(** * [score_guess] *)

(** The colours are the strings the function returns. *)
Definition green : string := "green".
Definition yellow : string := "yellow".
Definition grey : string := "grey".

(** The two locals the passes update: [res] and [answer_chars], whose
    consumed entries are [None]. *)
Definition scoring : Type := list string * list (option ascii).

(** Body of the first loop: greens. *)
Definition first_pass_body (answer : list ascii)
    (st : scoring) (i : nat) (ch : ascii) : option scoring :=
  a ← answer !! i;
  if decide (a = ch) then
    res ← list_set st.1 i green;
    answer_chars ← list_set st.2 i None;
    Some (res, answer_chars)
  else Some st.

(** Body of the second loop: yellows. *)
Definition second_pass_body
    (st : scoring) (i : nat) (ch : ascii) : option scoring :=
  r ← st.1 !! i;
  if decide (r = green) then Some st
  else if list_in (Some ch) st.2 then
    res ← list_set st.1 i yellow;
    k ← list_index (Some ch) st.2;
    answer_chars ← list_set st.2 k None;
    Some (res, answer_chars)
  else Some st.

Definition score_guess (guess answer : string) : option (list string) :=
  let res := replicate WORD_LENGTH grey in
  let answer_chars := Some <$> Str.chars answer in
  st ← for_enumerate (first_pass_body (Str.chars answer)) (Str.chars guess) (res, answer_chars);
  st ← for_enumerate second_pass_body (Str.chars guess) st;
  Some st.1.

(** * [select_daily_word] *)

Definition select_daily_word (date_key : string) : option string :=
  let h := Sha256.hexdigest (encode_utf8 date_key) in
  n ← int16 h;
  let idx := Z.to_nat (n mod Z.of_nat (length WORD_LIST)) in
  w ← WORD_LIST !! idx;
  Some (Str.upper w).

(** * The store *)

(** An entry of [state["attempts"]]. *)
Module Entry.
Record t : Type := { guess : string; feedback : list string }.
End Entry.

(** The dict kept per token and day. *)
Module State.
Record t : Type := { attempts : list Entry.t; finished : bool; won : bool }.

(** The dict a first access creates. *)
Definition fresh : t := {| attempts := []; finished := false; won := false |}.
End State.

(** [STORE[token][yyyymmdd]] *)
Abbreviation Store := (gmap string (gmap string State.t)).

Definition record_at (STORE : Store) (token date : string) : option State.t :=
  STORE !! token ≫= λ days, days !! date.

(** The record of a token and a day as a handler sees it: the stored one, or
    the one the first access creates. *)
Definition current (STORE : Store) (token date : string) : State.t :=
  default State.fresh (record_at STORE token date).

(** [get_state_for_today(token)], the clock reading [date].  The dict it
    returns is the one held in the store: what a handler then writes to it
    is written to the store, see [write_state]. *)
Definition get_state_for_today (date token : string) (STORE : Store) : Store * State.t :=
  let STORE := match STORE !! token with
               | Some _ => STORE
               | None => <[token := ∅]> STORE
               end in
  let days := default ∅ (STORE !! token) in
  match days !! date with
  | Some state => (STORE, state)
  | None => (<[token := <[date := State.fresh]> days]> STORE, State.fresh)
  end.

(** A mutation of the dict [get_state_for_today] returned, seen in the store. *)
Definition write_state (date token : string) (state : State.t) (STORE : Store) : Store :=
  <[token := <[date := state]> (default ∅ (STORE !! token))]> STORE.

(** * The handlers *)

Inductive exn : Type :=
| ValidationError (msg : string)   (* marshmallow's, the rejection of a guess *)
| IndexOrValueError.               (* raised by indexing, [index] or [int] *)

Inductive outcome (A : Type) : Type :=
| Return (a : A)
| Raise (e : exn).
Arguments Return {A} a.
Arguments Raise {A} e.

Module StatusResponse.
Record t : Type := {
  date : string;
  attempts : list (list string);
  guesses : list string;
  attempts_used : nat;
  max_attempts : nat;
  status : string;
  message : string;
}.
End StatusResponse.

Module GuessResponse.
Record t : Type := {
  feedback : list string;
  attempts_used : nat;
  max_attempts : nat;
  status : string;
  message : string;
}.
End GuessResponse.

(** A request carries the session [token] ([ensure_token]: the cookie, or a
    new random token) and is served at the UTC day [date] ([today_key]; the
    two readings of the clock within one request fall on the same day).
    The handlers are functions of these two and of the store; the cookie the
    response sets is not part of the model. *)

Module GameStatus.

Definition get (date token : string) (STORE : Store)
    : Store * outcome StatusResponse.t :=
  match select_daily_word date with
  | None => (STORE, Raise IndexOrValueError)
  | Some answer =>
      let '(STORE, state) := get_state_for_today date token STORE in
      let guesses := Entry.guess <$> State.attempts state in
      let attempts_feedback := Entry.feedback <$> State.attempts state in
      let status :=
        if State.won state then "won"
        else if State.finished state && negb (State.won state) then "lost"
        else "in_progress" in
      let msg :=
        if decide (status = "in_progress") then "Make your guess!"
        else if decide (status = "won") then "You won! 🎉"
        else "Out of attempts. The word was " +:+ answer +:+ "." in
      (STORE, Return {| StatusResponse.date := date;
                        StatusResponse.attempts := attempts_feedback;
                        StatusResponse.guesses := guesses;
                        StatusResponse.attempts_used := length (State.attempts state);
                        StatusResponse.max_attempts := MAX_ATTEMPTS;
                        StatusResponse.status := status;
                        StatusResponse.message := msg |})
  end.

End GameStatus.

Module GuessRequestSchema.

(** The [validate=] of the field [guess]; the value is a [str]. *)
Definition guess_validate (s : string) : bool :=
  bool_decide (Str.len s = WORD_LENGTH) && Str.isalpha s.

(** The [@validates("guess")] method; [Some] is the error it raises. *)
Definition validate_guess (value : string) : option exn :=
  let v := Str.strip value in
  if negb (bool_decide (Str.len v = WORD_LENGTH)) || negb (Str.isalpha v)
  then Some (ValidationError "Guess must be exactly 6 letters.")
  else None.

(** Deserialisation of the request body: the field's validator, whose
    [False] is marshmallow's "Invalid value.", then the schema's method. *)
Definition load (guess : string) : outcome string :=
  if guess_validate guess then
    match validate_guess guess with
    | Some e => Raise e
    | None => Return guess
    end
  else Raise (ValidationError "Invalid value.").

End GuessRequestSchema.

(** [@blp.arguments(schema, location="json")]: the view runs on the
    deserialised body, and a body the schema refuses never reaches it. *)
Definition blp_arguments {A B} (load : string → outcome A)
    (view : A → Store → Store * outcome B)
    (body : string) (STORE : Store) : Store * outcome B :=
  match load body with
  | Return json_data => view json_data STORE
  | Raise e => (STORE, Raise e)
  end.

(** [all(x == "green" for x in feedback)] *)
Definition all_green (feedback : list string) : bool :=
  forallb (λ x, bool_decide (x = green)) feedback.

Module GameGuess.

(** The method as written, on [json_data["guess"]]. *)
Definition post_body (date token : string) (guess_raw : string) (STORE : Store)
    : Store * outcome GuessResponse.t :=
  match select_daily_word date with
  | None => (STORE, Raise IndexOrValueError)
  | Some answer =>
      let '(STORE, state) := get_state_for_today date token STORE in
      if State.finished state then
        let status := if State.won state then "won" else "lost" in
        let message := "Game already finished for today." in
        (STORE, Return {| GuessResponse.feedback := [];
                          GuessResponse.attempts_used := length (State.attempts state);
                          GuessResponse.max_attempts := MAX_ATTEMPTS;
                          GuessResponse.status := status;
                          GuessResponse.message := message |})
      else
        let guess := Str.upper (Str.strip guess_raw) in
        if negb (bool_decide (Str.len guess = WORD_LENGTH)) || negb (Str.isalpha guess)
        then (STORE, Raise (ValidationError "Guess must be exactly 6 letters."))
        else
          match score_guess guess answer with
          | None => (STORE, Raise IndexOrValueError)
          | Some feedback =>
              let attempts :=
                State.attempts state
                  ++ [ {| Entry.guess := guess; Entry.feedback := feedback |} ] in
              let won := all_green feedback in
              let '(state, status, message) :=
                if won then
                  ({| State.attempts := attempts; State.finished := true; State.won := true |},
                   "won", "Correct! 🎉")
                else if bool_decide (MAX_ATTEMPTS ≤ length attempts) then
                  ({| State.attempts := attempts; State.finished := true; State.won := false |},
                   "lost", "No attempts left. The word was " +:+ answer +:+ ".")
                else
                  ({| State.attempts := attempts;
                      State.finished := State.finished state;
                      State.won := State.won state |},
                   "in_progress", "Good try! Keep going.") in
              (write_state date token state STORE,
               Return {| GuessResponse.feedback := feedback;
                         GuessResponse.attempts_used := length (State.attempts state);
                         GuessResponse.max_attempts := MAX_ATTEMPTS;
                         GuessResponse.status := status;
                         GuessResponse.message := message |})
          end
  end.

(** The method as registered: behind [@blp.arguments(GuessRequestSchema)]. *)
Definition post (date token : string) (guess_raw : string) (STORE : Store)
    : Store * outcome GuessResponse.t :=
  blp_arguments GuessRequestSchema.load (post_body date token) guess_raw STORE.

End GameGuess.

(** The stores the two endpoints can produce from the empty one. *)
Inductive reachable : Store → Prop :=
| reachable_empty : reachable ∅
| reachable_status date token STORE :
    reachable STORE → reachable (GameStatus.get date token STORE).1
| reachable_guess date token guess_raw STORE :
    reachable STORE → reachable (GameGuess.post date token guess_raw STORE).1.

(** * The scoring rule in the words of the specification *)

(** Number of elements of [l] that satisfy [f]. *)
Fixpoint count_if {A} (f : A → bool) (l : list A) : nat :=
  match l with
  | [] => 0
  | x :: l' => (if f x then 1 else 0) + count_if f l'
  end.

(** Occurrences of the letter [c] in [s]. *)
Definition occurrences (c : ascii) (s : string) : nat :=
  count_if (λ x, bool_decide (x = c)) (Str.chars s).

(** The letters of the guess and of the answer, position by position. *)
Definition pairs (guess answer : string) : list (ascii * ascii) :=
  zip (Str.chars guess) (Str.chars answer).

(** A position is green when the two letters agree. *)
Definition is_green (p : ascii * ascii) : bool := bool_decide (p.1 = p.2).

(** Occurrences of [c] in the answer that no green position has consumed:
    the remaining-letter multiset after the first pass. *)
Definition remaining (guess answer : string) (c : ascii) : nat :=
  count_if (λ p, bool_decide (p.2 = c) && negb (is_green p)) (pairs guess answer).

(** Non-green occurrences of [c] in the guess to the left of position [i]. *)
Definition earlier (guess answer : string) (i : nat) (c : ascii) : nat :=
  count_if (λ p, bool_decide (p.1 = c) && negb (is_green p)) (take i (pairs guess answer)).

(** Green where the letters agree; otherwise yellow for the first non-green
    occurrences of the letter, up to the remaining count, and grey for the
    others. *)
Definition spec_colour (guess answer : string) (i : nat) : string :=
  match pairs guess answer !! i with
  | Some (g, a) =>
      if decide (g = a) then green
      else if decide (earlier guess answer i g < remaining guess answer g) then yellow
      else grey
  | None => grey
  end.

Definition spec_score (guess answer : string) : list string :=
  spec_colour guess answer <$> seq 0 WORD_LENGTH.

(** Positions of the guess that hold [c] and that [res] marks green or yellow. *)
Definition marked (guess : string) (res : list string) (c : ascii) : nat :=
  count_if (λ i, bool_decide (Str.chars guess !! i = Some c
                              ∧ (res !! i = Some green ∨ res !! i = Some yellow)))
           (seq 0 WORD_LENGTH).

(** Occurrences of [Some c] among the characters not yet consumed. *)
Definition left_over (c : ascii) (answer_chars : list (option ascii)) : nat :=
  count_if (λ y, bool_decide (y = Some c)) answer_chars.

(** What the first loop leaves in [res] and in [answer_chars]. *)
Definition greens (guess answer : string) : list string :=
  (λ p, if is_green p then green else grey) <$> pairs guess answer.

Definition unconsumed (guess answer : string) : list (option ascii) :=
  (λ p, if is_green p then None else Some p.2) <$> pairs guess answer.

(** The state after [i] steps of the first loop. *)
Definition first_inv (guess answer : string) (i : nat) (st : scoring) : Prop :=
  length st.1 = WORD_LENGTH ∧ length st.2 = WORD_LENGTH
  ∧ ∀ j p, pairs guess answer !! j = Some p →
      st.1 !! j = Some (if decide (j < i) then if is_green p then green else grey
                        else grey)
      ∧ st.2 !! j = Some (if decide (j < i) then if is_green p then None else Some p.2
                          else Some p.2).

(** The state after [i] steps of the second loop. *)
Definition second_inv (guess answer : string) (i : nat) (st : scoring) : Prop :=
  length st.1 = WORD_LENGTH
  ∧ (∀ j p, pairs guess answer !! j = Some p →
       st.1 !! j = Some (if decide (j < i) then spec_colour guess answer j
                         else if is_green p then green else grey))
  ∧ ∀ c, left_over c st.2 = remaining guess answer c - earlier guess answer i c.

(** Positions before [i] where the guess holds [c] and [res] is yellow. *)
Definition yellows_before (guess : string) (res : list string) (i : nat) (c : ascii) : nat :=
  count_if (λ j, bool_decide (Str.chars guess !! j = Some c ∧ res !! j = Some yellow))
           (seq 0 i).

(** Green positions that hold [c], among the first [i]. *)
Definition greens_of (guess answer : string) (i : nat) (c : ascii) : nat :=
  count_if (λ p, bool_decide (p.1 = c) && is_green p) (take i (pairs guess answer)).

(** The payload [GameStatus.get] builds from the answer and the record. *)
Definition status_payload (date answer : string) (state : State.t) : StatusResponse.t :=
  let status :=
    if State.won state then "won"
    else if State.finished state && negb (State.won state) then "lost"
    else "in_progress" in
  {| StatusResponse.date := date;
     StatusResponse.attempts := Entry.feedback <$> State.attempts state;
     StatusResponse.guesses := Entry.guess <$> State.attempts state;
     StatusResponse.attempts_used := length (State.attempts state);
     StatusResponse.max_attempts := MAX_ATTEMPTS;
     StatusResponse.status := status;
     StatusResponse.message :=
       if decide (status = "in_progress") then "Make your guess!"
       else if decide (status = "won") then "You won! 🎉"
       else "Out of attempts. The word was " +:+ answer +:+ "." |}.

(** [guess_raw.strip().upper()] *)
Definition normalized (guess_raw : string) : string := Str.upper (Str.strip guess_raw).

(** The response of [GameGuess.post] on a finished game. *)
Definition finished_response (state : State.t) : GuessResponse.t :=
  {| GuessResponse.feedback := [];
     GuessResponse.attempts_used := length (State.attempts state);
     GuessResponse.max_attempts := MAX_ATTEMPTS;
     GuessResponse.status := if State.won state then "won" else "lost";
     GuessResponse.message := "Game already finished for today." |}.

(** The record, the status and the message after an attempt was appended. *)
Definition outcome_of (answer : string) (state : State.t)
    (attempts : list Entry.t) (feedback : list string) : State.t * string * string :=
  if all_green feedback then
    ({| State.attempts := attempts; State.finished := true; State.won := true |},
     "won", "Correct! 🎉")
  else if bool_decide (MAX_ATTEMPTS ≤ length attempts) then
    ({| State.attempts := attempts; State.finished := true; State.won := false |},
     "lost", "No attempts left. The word was " +:+ answer +:+ ".")
  else
    ({| State.attempts := attempts;
        State.finished := State.finished state;
        State.won := State.won state |},
     "in_progress", "Good try! Keep going.").

(** The invariants of a record. *)
Definition record_inv (state : State.t) : Prop :=
  length (State.attempts state) ≤ MAX_ATTEMPTS
  ∧ (State.won state = true → State.finished state = true)
  ∧ (∀ i e, State.attempts state !! i = Some e →
       all_green (Entry.feedback e) = true →
       S i = length (State.attempts state) ∧ State.won state = true).

(** What holds besides while the game is not finished: there is room for an
    attempt, and no attempt so far is all green. *)
Definition record_ok (state : State.t) : Prop :=
  record_inv state
  ∧ (State.finished state = false →
     length (State.attempts state) < MAX_ATTEMPTS
     ∧ ∀ e, e ∈ State.attempts state → all_green (Entry.feedback e) = false).

Definition store_ok (STORE : Store) : Prop :=
  ∀ token date state, record_at STORE token date = Some state → record_ok state.

(** * Sample sessions *)

(** The answer of 1 January 2024 is "BRIGHT". *)
Definition day : string := "20240101".

Fixpoint submit_all (token : string) (guesses : list string) (STORE : Store) : Store :=
  match guesses with
  | [] => STORE
  | g :: guesses' => submit_all token guesses' (GameGuess.post day token g STORE).1
  end.

(** A session that has used four attempts, and one that has won. *)
Definition four_misses : Store :=
  submit_all "tok" ["oceans"; "Corals"; "PEARLS"; "sailor"] ∅.

Definition won_at_once : Store := submit_all "tok" ["bright"] ∅.



(** * The rest of the module *)

(** What the loops of [score_guess] keep of their state from step [i] on:
    the two lengths, and the entries of [res] at the positions not yet
    visited, which are those of [res0]. *)
Definition untouched (res0 : list string) (n : nat) (i : nat) (st : scoring) : Prop :=
  length st.1 = length res0 ∧ length st.2 = n
  ∧ ∀ j, i ≤ j → st.1 !! j = res0 !! j.

(** One request served: the store before and after. *)
Inductive step : Store → Store → Prop :=
| step_status date token STORE : step STORE (GameStatus.get date token STORE).1
| step_guess date token guess_raw STORE :
    step STORE (GameGuess.post date token guess_raw STORE).1.

(** An attempt as [GameGuess.post] records it on the day [date]: a guess of
    [WORD_LENGTH] upper-case letters with its score against the answer of
    the day. *)
Definition entry_ok (date : string) (e : Entry.t) : Prop :=
  ∃ answer, select_daily_word date = Some answer
    ∧ Str.len (Entry.guess e) = WORD_LENGTH
    ∧ Str.isalpha (Entry.guess e) = true
    ∧ Str.upper (Entry.guess e) = Entry.guess e
    ∧ score_guess (Entry.guess e) answer = Some (Entry.feedback e).

Definition entries_ok (STORE : Store) : Prop :=
  ∀ token date state, record_at STORE token date = Some state →
    Forall (entry_ok date) (State.attempts state).

(** The flags of a record, read off its attempts. *)
Definition flags_ok (state : State.t) : Prop :=
  (State.finished state = true
   ↔ State.won state = true ∨ length (State.attempts state) = MAX_ATTEMPTS)
  ∧ (State.won state = true
     ↔ ∃ e, last (State.attempts state) = Some e
            ∧ all_green (Entry.feedback e) = true).

(** [ensure_token()].  [cookie] is [request.cookies.get("wg_token")]; [rnd]
    and [now] are the texts of [random.random()] and of
    [datetime.utcnow().isoformat()] that the f-string joins. *)
Definition ensure_token (cookie : option string) (rnd now : string) : string :=
  let fresh := Sha256.hexdigest (encode_utf8 (rnd +:+ "-" +:+ now)) in
  match cookie with
  | Some token => if decide (token = "") then fresh else token
  | None => fresh
  end.

(** [n] in decimal on [width] digits, zero-padded (the low [width] digits). *)
Fixpoint decimal (width n : nat) : string :=
  match width with
  | O => EmptyString
  | S width' =>
      decimal width' (n / 10) +:+ String (ascii_of_nat (48 + n mod 10)) EmptyString
  end.

(** [today_key()]: [strftime("%Y%m%d")] of the UTC date the clock gives, for
    a year of four digits: the year, the month and the day of the month,
    the last two padded with a zero. *)
Definition today_key (year month day_of_month : nat) : string :=
  decimal 4 year +:+ decimal 2 month +:+ decimal 2 day_of_month.

(** * Guesses outside ASCII, and the two readings of the clock *)

(** [s.isascii()]: every character is an ASCII one.  On such strings the
    functions of [Str] are those of Python's [str]. *)
Definition str_isascii (s : string) : bool :=
  forallb (λ c, Str.code c <? 128) (Str.chars s).

(** ** [str] on code points

    A [str] as the list of its code points, for the guesses that [Str] does
    not cover.  The three tables are Python's on ASCII, on the white space
    U+0085 and U+00A0 and on the letters U+00DF (sharp s, upper-cased to
    "SS") and U+FB01 (the ligature fi, upper-cased to "FI"); the other code
    points are left out of them, and this layer is used on the strings
    within the tables only, see [covered]. *)
Module Unicode.

Local Open Scope N_scope.

(** [c.isspace()] *)
Definition isspace_cp (c : N) : bool :=
  ((9 <=? c) && (c <=? 13)) || ((28 <=? c) && (c <=? 32))
  || (c =? 0x85) || (c =? 0xA0).

(** [c.isalpha()] *)
Definition isalpha_cp (c : N) : bool :=
  ((65 <=? c) && (c <=? 90)) || ((97 <=? c) && (c <=? 122))
  || (c =? 0xDF) || (c =? 0xFB01).

(** [c.upper()], which may be longer than one character. *)
Definition upper_cp (c : N) : list N :=
  if (97 <=? c) && (c <=? 122) then [c - 32]
  else if c =? 0xDF then [83; 83]
  else if c =? 0xFB01 then [70; 73]
  else [c].

(** The code points the three tables cover. *)
Definition covered_cp (c : N) : bool :=
  (c <? 128) || (c =? 0x85) || (c =? 0xA0) || (c =? 0xDF) || (c =? 0xFB01).

Definition covered (s : list N) : bool := forallb covered_cp s.

(** [len(s)], [s.upper()], [s.isalpha()] *)
Definition len (s : list N) : nat := length s.

Definition upper (s : list N) : list N := flat_map upper_cp s.

Definition isalpha (s : list N) : bool :=
  match s with
  | [] => false
  | _ => forallb isalpha_cp s
  end.

(** [s.lstrip()], [s.rstrip()] and [s.strip()] *)
Fixpoint lstrip (s : list N) : list N :=
  match s with
  | [] => []
  | c :: s' => if isspace_cp c then lstrip s' else s
  end.

Fixpoint rstrip (s : list N) : list N :=
  match s with
  | [] => []
  | c :: s' =>
      match rstrip s' with
      | [] => if isspace_cp c then [] else [c]
      | t => c :: t
      end
  end.

Definition strip (s : list N) : list N := rstrip (lstrip s).

(** The code points of an ASCII string. *)
Definition of_string (s : string) : list N :=
  map (λ c, N.of_nat (Str.code c)) (Str.chars s).

(** The validator of the field [guess] (line 88). *)
Definition guess_validate (s : list N) : bool :=
  bool_decide (len s = WORD_LENGTH) && isalpha s.

(** The method [validate_guess] (lines 94 to 96): [true] when it does not
    raise. *)
Definition validate_guess (s : list N) : bool :=
  let v := strip s in
  bool_decide (len v = WORD_LENGTH) && isalpha v.

(** The check of [post] on the trimmed, upper-cased guess (lines 183 to
    186): [true] when it does not raise. *)
Definition method_check (s : list N) : bool :=
  let guess := upper (strip s) in
  bool_decide (len guess = WORD_LENGTH) && isalpha guess.

(** A guess of a game that is not finished is accepted when the schema lets
    it through and the method does not raise on it. *)
Definition accepted (s : list N) : bool :=
  guess_validate s && validate_guess s && method_check s.

End Unicode.

(** ** The handlers with the two readings of the clock kept apart

    [date] is the reading of the handler ([date = today_key()], lines 126
    and 167), which selects the answer; [state_date] is the reading of
    [get_state_for_today] (line 49), which selects the record. *)
Module TwoClocks.

Definition get (date state_date token : string) (STORE : Store)
    : Store * outcome StatusResponse.t :=
  match select_daily_word date with
  | None => (STORE, Raise IndexOrValueError)
  | Some answer =>
      let '(STORE, state) := get_state_for_today state_date token STORE in
      let guesses := Entry.guess <$> State.attempts state in
      let attempts_feedback := Entry.feedback <$> State.attempts state in
      let status :=
        if State.won state then "won"
        else if State.finished state && negb (State.won state) then "lost"
        else "in_progress" in
      let msg :=
        if decide (status = "in_progress") then "Make your guess!"
        else if decide (status = "won") then "You won! 🎉"
        else "Out of attempts. The word was " +:+ answer +:+ "." in
      (STORE, Return {| StatusResponse.date := date;
                        StatusResponse.attempts := attempts_feedback;
                        StatusResponse.guesses := guesses;
                        StatusResponse.attempts_used := length (State.attempts state);
                        StatusResponse.max_attempts := MAX_ATTEMPTS;
                        StatusResponse.status := status;
                        StatusResponse.message := msg |})
  end.

Definition post_body (date state_date token : string) (guess_raw : string) (STORE : Store)
    : Store * outcome GuessResponse.t :=
  match select_daily_word date with
  | None => (STORE, Raise IndexOrValueError)
  | Some answer =>
      let '(STORE, state) := get_state_for_today state_date token STORE in
      if State.finished state then
        let status := if State.won state then "won" else "lost" in
        let message := "Game already finished for today." in
        (STORE, Return {| GuessResponse.feedback := [];
                          GuessResponse.attempts_used := length (State.attempts state);
                          GuessResponse.max_attempts := MAX_ATTEMPTS;
                          GuessResponse.status := status;
                          GuessResponse.message := message |})
      else
        let guess := Str.upper (Str.strip guess_raw) in
        if negb (bool_decide (Str.len guess = WORD_LENGTH)) || negb (Str.isalpha guess)
        then (STORE, Raise (ValidationError "Guess must be exactly 6 letters."))
        else
          match score_guess guess answer with
          | None => (STORE, Raise IndexOrValueError)
          | Some feedback =>
              let attempts :=
                State.attempts state
                  ++ [ {| Entry.guess := guess; Entry.feedback := feedback |} ] in
              let won := all_green feedback in
              let '(state, status, message) :=
                if won then
                  ({| State.attempts := attempts; State.finished := true; State.won := true |},
                   "won", "Correct! 🎉")
                else if bool_decide (MAX_ATTEMPTS ≤ length attempts) then
                  ({| State.attempts := attempts; State.finished := true; State.won := false |},
                   "lost", "No attempts left. The word was " +:+ answer +:+ ".")
                else
                  ({| State.attempts := attempts;
                      State.finished := State.finished state;
                      State.won := State.won state |},
                   "in_progress", "Good try! Keep going.") in
              (write_state state_date token state STORE,
               Return {| GuessResponse.feedback := feedback;
                         GuessResponse.attempts_used := length (State.attempts state);
                         GuessResponse.max_attempts := MAX_ATTEMPTS;
                         GuessResponse.status := status;
                         GuessResponse.message := message |})
          end
  end.

Definition post (date state_date token : string) (guess_raw : string) (STORE : Store)
    : Store * outcome GuessResponse.t :=
  blp_arguments GuessRequestSchema.load (post_body date state_date token) guess_raw STORE.

(** The stores the two endpoints can produce from the empty one, whatever
    the clock reads. *)
Inductive reachable : Store → Prop :=
| from_empty : reachable ∅
| by_status date state_date token STORE :
    reachable STORE → reachable (get date state_date token STORE).1
| by_guess date state_date token guess_raw STORE :
    reachable STORE → reachable (post date state_date token guess_raw STORE).1.

End TwoClocks.

(** An attempt as [post] records it, whatever the clock read: a guess of
    [WORD_LENGTH] upper-case letters with its score against the answer of
    the day the handler read. *)
Definition entry_scored (e : Entry.t) : Prop := ∃ date, entry_ok date e.

(** What every record keeps, whatever the clock reads. *)
Definition record_good (state : State.t) : Prop :=
  record_ok state ∧ flags_ok state ∧ Forall entry_scored (State.attempts state).

Definition store_good (STORE : Store) : Prop :=
  ∀ token date state, record_at STORE token date = Some state → record_good state.

(** An accepted guess of a game that is not finished is appended in its
    trimmed, upper-cased form, and [GameStatus.get] then lists it after the
    guesses it listed before.  [handler] is the method as written or as
    registered. *)
Definition appends_normalized
    (handler : string → Store → Store * outcome GuessResponse.t)
    (date token guess_raw : string) (STORE : Store) : Prop :=
  State.finished (current STORE token date) = false →
  ∀ resp, (handler guess_raw STORE).2 = Return resp →
  ∃ before after,
    State.attempts (current (handler guess_raw STORE).1 token date)
    = State.attempts (current STORE token date)
        ++ [ {| Entry.guess := Str.upper (Str.strip guess_raw);
                Entry.feedback := GuessResponse.feedback resp |} ]
    ∧ (GameStatus.get date token STORE).2 = Return before
    ∧ (GameStatus.get date token (handler guess_raw STORE).1).2 = Return after
    ∧ StatusResponse.guesses after
      = StatusResponse.guesses before ++ [Str.upper (Str.strip guess_raw)].

(** A session served across midnight: the handler reads the clock on
    1 January 2024, [get_state_for_today] reads it on 2 January. *)
Definition across_midnight : Store :=
  (TwoClocks.post "20240101" "20240102" "tok" "bright" ∅).1.

(** * Properties *)

(** ** The hash function on the standard's test vectors *)

Example sha256_constants :
  length Sha256.K = 64 ∧ head Sha256.K = Some 0x428a2f98%Z
  ∧ last Sha256.K = Some 0xc67178f2%Z
  ∧ length Sha256.H0 = 8 ∧ head Sha256.H0 = Some 0x6a09e667%Z
  ∧ last Sha256.H0 = Some 0x5be0cd19%Z.
Proof. by vm_compute. Qed.

Example sha256_empty :
  Sha256.hexdigest (encode_utf8 "")
  = "e3b0c44298fc1c149afbf4c8996fb92427ae41e4649b934ca495991b7852b855".
Proof. vm_compute. reflexivity. Qed.

Example sha256_abc :
  Sha256.hexdigest (encode_utf8 "abc")
  = "ba7816bf8f01cfea414140de5dae2223b00361a396177a9cb410ff61f20015ad".
Proof. vm_compute. reflexivity. Qed.

Example sha256_two_blocks :
  Sha256.hexdigest (encode_utf8 "abcdbcdecdefdefgefghfghighijhijkijkljklmklmnlmnomnopnopq")
  = "248d6a61d20638b8e5c026930c3e6039a33ce45964ff2167f6ecedd419db06c1".
Proof. vm_compute. reflexivity. Qed.

(** ** [str] on examples *)

Example strip_examples :
  Str.strip "  a b  " = "a b" ∧ Str.strip "   " = "" ∧ Str.strip " OCEANS " = "OCEANS"
  ∧ Str.strip "bright" = "bright".
Proof. by vm_compute. Qed.

Example upper_examples :
  Str.upper "mArine" = "MARINE" ∧ Str.upper "a-z {}" = "A-Z {}".
Proof. by vm_compute. Qed.

Example isalpha_examples :
  Str.isalpha "OCEANS" = true ∧ Str.isalpha "" = false
  ∧ Str.isalpha "OCEAN5" = false ∧ Str.isalpha " OCEANS " = false.
Proof. by vm_compute. Qed.

(** ** [score_guess] on examples *)

Example score_guess_pearls_spears :
  score_guess "SPEARS" "PEARLS" = Some [grey; yellow; yellow; yellow; yellow; green].
Proof. reflexivity. Qed.

Example score_guess_too_long : score_guess "OCEANSX" "OCEANS" = None.
Proof. reflexivity. Qed.


(** Case analysis on the decisions of a goal, closing the absurd cases. *)
Ltac decide_cases :=
  repeat first [ case_decide | case_bool_decide ];
  simplify_eq; try lia; try done.

(** ** Lists *)

Lemma count_if_app {A} (f : A → bool) (l1 l2 : list A) :
  count_if f (l1 ++ l2) = count_if f l1 + count_if f l2.
Proof. induction l1 as [|x l1 IH]; simpl; [done | rewrite IH; lia]. Qed.

Lemma count_if_ext {A} (f g : A → bool) (l : list A) :
  (∀ x, x ∈ l → f x = g x) → count_if f l = count_if g l.
Proof.
  induction l as [|x l IH]; intros Hfg; simpl; [done |].
  rewrite (Hfg x) by apply list_elem_of_here.
  rewrite IH; [done |]. intros y Hy. apply Hfg. by apply list_elem_of_further.
Qed.

Lemma count_if_fmap {A B} (f : B → bool) (h : A → B) (l : list A) :
  count_if f (h <$> l) = count_if (f ∘ h) l.
Proof. induction l as [|x l IH]; csimpl; [done | by rewrite IH]. Qed.

Lemma list_set_Some {A} (l : list A) (i : nat) (x : A) :
  i < length l → list_set l i x = Some (<[i:=x]> l).
Proof. intros Hi. unfold list_set. by rewrite decide_True. Qed.

Lemma list_in_left_over (c : ascii) (l : list (option ascii)) :
  list_in (Some c) l = bool_decide (0 < left_over c l).
Proof.
  unfold left_over. induction l as [|y l IH]; simpl; [done |].
  destruct (decide (y = Some c)) as [->|Hy].
  - rewrite (bool_decide_eq_true_2 (Some c = Some c)) by done.
    simpl. first [ done | symmetry; apply bool_decide_eq_true_2; lia ].
  - rewrite (bool_decide_eq_false_2 (y = Some c)) by done. simpl. exact IH.
Qed.

(** [index] finds the first occurrence, and consuming it takes exactly one
    occurrence of that letter away. *)
Lemma list_index_consume (ch : ascii) (l : list (option ascii)) :
  0 < left_over ch l →
  ∃ k, list_index (Some ch) l = Some k ∧ k < length l
       ∧ ∀ c, left_over c (<[k:=None]> l)
              = left_over c l - (if decide (c = ch) then 1 else 0).
Proof.
  unfold left_over. induction l as [|y l IH]; simpl; [lia |].
  destruct (decide (y = Some ch)) as [->|Hy].
  - intros _. exists 0. split; [done |]. split; [lia |]. intros c. simpl.
    destruct (decide (c = ch)) as [->|Hc]; repeat case_bool_decide; simplify_eq; lia.
  - rewrite (bool_decide_eq_false_2 (y = Some ch)) by done. simpl. intros Hpos.
    destruct (IH Hpos) as (k & Hk & Hlt & Hcount).
    exists (S k). rewrite Hk. split; [done |]. split; [lia |].
    intros c. simpl. rewrite Hcount.
    destruct (decide (c = ch)) as [->|Hc]; repeat case_bool_decide; simplify_eq; lia.
Qed.

(** The rule of a loop over [enumerate]: an invariant indexed by the number
    of elements already visited. *)
Lemma for_enumerate_from_inv {A St} (body : St → nat → A → option St)
    (Inv : nat → St → Prop) (l : list A) :
  (∀ i ch st, l !! i = Some ch → Inv i st →
     ∃ st', body st i ch = Some st' ∧ Inv (S i) st') →
  ∀ suffix k st, k ≤ length l → drop k l = suffix → Inv k st →
    ∃ st', for_enumerate_from body k suffix st = Some st' ∧ Inv (length l) st'.
Proof.
  intros Hbody suffix.
  induction suffix as [|ch suffix IH]; intros k st Hle Hdrop Hinv.
  - exists st. split; [done |].
    apply (f_equal length) in Hdrop. rewrite length_drop in Hdrop. simpl in Hdrop.
    by replace (length l) with k by lia.
  - assert (l !! k = Some ch) as Hk.
    { rewrite <- (Nat.add_0_r k), <- lookup_drop, Hdrop. done. }
    destruct (Hbody k ch st Hk Hinv) as (st' & Hst' & Hinv').
    simpl. rewrite Hst'. simpl. apply IH; [| | done].
    + apply lookup_lt_Some in Hk. lia.
    + replace (S k) with (k + 1) by lia. by rewrite <- drop_drop, Hdrop.
Qed.

Lemma for_enumerate_inv {A St} (body : St → nat → A → option St)
    (Inv : nat → St → Prop) (l : list A) (st : St) :
  (∀ i ch st, l !! i = Some ch → Inv i st →
     ∃ st', body st i ch = Some st' ∧ Inv (S i) st') →
  Inv 0 st →
  ∃ st', for_enumerate body l st = Some st' ∧ Inv (length l) st'.
Proof. intros Hbody Hinv. apply for_enumerate_from_inv; [done | lia | done | done]. Qed.

(** ** [str] *)

Lemma length_chars (s : string) : length (Str.chars s) = Str.len s.
Proof. unfold Str.chars, Str.len. induction s as [|c s IH]; simpl; [done | by rewrite IH]. Qed.

Lemma chars_inj (s t : string) : Str.chars s = Str.chars t → s = t.
Proof.
  unfold Str.chars. intros H.
  rewrite <- (string_of_list_ascii_of_string s), <- (string_of_list_ascii_of_string t).
  by rewrite H.
Qed.

(** ** The two passes of [score_guess] *)

Section passes.
Variables guess answer : string.
Hypothesis Hguess : Str.len guess = WORD_LENGTH.
Hypothesis Hanswer : Str.len answer = WORD_LENGTH.

Lemma length_pairs : length (pairs guess answer) = WORD_LENGTH.
Proof. unfold pairs. rewrite length_zip_with, !length_chars. lia. Qed.

Lemma pairs_lookup_lt (i : nat) :
  i < WORD_LENGTH →
  ∃ g a, Str.chars guess !! i = Some g ∧ Str.chars answer !! i = Some a
         ∧ pairs guess answer !! i = Some (g, a).
Proof.
  intros Hi.
  destruct (lookup_lt_is_Some_2 (Str.chars guess) i) as [g Hg];
    [rewrite length_chars; lia |].
  destruct (lookup_lt_is_Some_2 (Str.chars answer) i) as [a Ha];
    [rewrite length_chars; lia |].
  exists g, a. split; [done |]. split; [done |]. by apply lookup_zip_Some.
Qed.

Lemma first_pass_step i ch st :
  Str.chars guess !! i = Some ch → first_inv guess answer i st →
  ∃ st', first_pass_body (Str.chars answer) st i ch = Some st'
         ∧ first_inv guess answer (S i) st'.
Proof.
  intros Hch (Hres & Hac & Hpt). destruct st as [res ac]. simpl in *.
  assert (i < WORD_LENGTH) as Hi.
  { apply lookup_lt_Some in Hch. by rewrite length_chars, Hguess in Hch. }
  destruct (pairs_lookup_lt i Hi) as (g & a & Hg & Ha & Hp).
  assert (g = ch) as -> by congruence.
  unfold first_pass_body. rewrite Ha. simpl.
  destruct (decide (a = ch)) as [->|Hne].
  - rewrite !list_set_Some by lia. simpl. eexists. split; [done |].
    unfold first_inv. simpl.
    split; [by rewrite length_insert |]. split; [by rewrite length_insert |].
    simpl. intros j p Hj. destruct (decide (j = i)) as [->|Hji].
    + rewrite !list_lookup_insert_eq by lia.
      assert (p = (ch, ch)) as -> by congruence.
      unfold is_green. simpl. by decide_cases.
    + rewrite !list_lookup_insert_ne by done.
      destruct (Hpt j p Hj) as [-> ->].
      by destruct (decide (j < i)), (decide (j < S i)); try lia.
  - eexists. split; [done |]. split; [done |]. split; [done |].
    simpl. intros j p Hj. destruct (Hpt j p Hj) as [-> ->].
    destruct (decide (j = i)) as [->|Hji].
    + assert (p = (ch, a)) as -> by congruence.
      unfold is_green. simpl. by decide_cases.
    + by destruct (decide (j < i)), (decide (j < S i)); try lia.
Qed.

Lemma first_pass_spec :
  for_enumerate (first_pass_body (Str.chars answer)) (Str.chars guess)
                (replicate WORD_LENGTH grey, Some <$> Str.chars answer)
  = Some (greens guess answer, unconsumed guess answer).
Proof.
  destruct (for_enumerate_inv (first_pass_body (Str.chars answer))
              (first_inv guess answer) (Str.chars guess) (replicate WORD_LENGTH grey, Some <$> Str.chars answer))
    as ([res ac] & Hrun & Hres & Hac & Hpt).
  - intros i ch st. apply first_pass_step.
  - unfold first_inv. cbn [fst snd].
    split; [by rewrite length_replicate |].
    split; [by rewrite length_fmap, length_chars |].
    intros j p Hj. rewrite decide_False by lia.
    assert (j < WORD_LENGTH) as Hlt by (apply lookup_lt_Some in Hj; by rewrite length_pairs in Hj).
    destruct p as [g a]. apply lookup_zip_Some in Hj as [_ Ha].
    split; [by apply lookup_replicate_2 |].
    rewrite list_lookup_fmap, Ha. done.
  - rewrite Hrun. f_equal. rewrite length_chars, Hguess in Hpt. simpl in *.
    f_equal; apply list_eq; intros j; unfold greens, unconsumed;
      rewrite list_lookup_fmap;
      destruct (pairs guess answer !! j) as [p|] eqn:Hj; simpl.
    + destruct (Hpt j p Hj) as [-> _].
      rewrite decide_True; [done |].
      apply lookup_lt_Some in Hj. by rewrite length_pairs in Hj.
    + apply lookup_ge_None. apply lookup_ge_None in Hj.
      rewrite length_pairs in Hj. lia.
    + destruct (Hpt j p Hj) as [_ ->].
      rewrite decide_True; [done |].
      apply lookup_lt_Some in Hj. by rewrite length_pairs in Hj.
    + apply lookup_ge_None. apply lookup_ge_None in Hj.
      rewrite length_pairs in Hj. lia.
Qed.

Lemma left_over_unconsumed (c : ascii) :
  left_over c (unconsumed guess answer) = remaining guess answer c.
Proof.
  unfold left_over, unconsumed, remaining. rewrite count_if_fmap.
  apply count_if_ext. intros [g a] _. unfold is_green. simpl. by decide_cases.
Qed.

Lemma earlier_S (i : nat) (p : ascii * ascii) (c : ascii) :
  pairs guess answer !! i = Some p →
  earlier guess answer (S i) c
  = earlier guess answer i c
    + (if bool_decide (p.1 = c) && negb (is_green p) then 1 else 0).
Proof using Type.
  clear Hguess Hanswer. intros Hp. unfold earlier. rewrite (take_S_r _ _ _ Hp), count_if_app. simpl. lia.
Qed.

Lemma spec_colour_green (i : nat) (c : ascii) :
  pairs guess answer !! i = Some (c, c) → spec_colour guess answer i = green.
Proof. intros Hp. unfold spec_colour. rewrite Hp. by rewrite decide_True. Qed.

Lemma spec_colour_not_green (i : nat) (g a : ascii) :
  pairs guess answer !! i = Some (g, a) → g ≠ a →
  spec_colour guess answer i
  = if decide (earlier guess answer i g < remaining guess answer g) then yellow else grey.
Proof. intros Hp Hne. unfold spec_colour. rewrite Hp. by rewrite decide_False. Qed.

Lemma second_pass_step i ch st :
  Str.chars guess !! i = Some ch → second_inv guess answer i st →
  ∃ st', second_pass_body st i ch = Some st' ∧ second_inv guess answer (S i) st'.
Proof.
  intros Hch (Hres & Hpt & Hcount). destruct st as [res ac]. cbn [fst snd] in *.
  assert (i < WORD_LENGTH) as Hi.
  { apply lookup_lt_Some in Hch. by rewrite length_chars, Hguess in Hch. }
  destruct (pairs_lookup_lt i Hi) as (g & a & Hg & Ha & Hp).
  assert (g = ch) as -> by congruence.
  pose proof (Hpt i _ Hp) as Hri. rewrite decide_False in Hri by lia.
  unfold second_pass_body. cbn [fst snd]. rewrite Hri. cbn [mbind option_bind].
  unfold is_green. cbn [fst snd].
  destruct (decide (ch = a)) as [<-|Hne].
  - rewrite bool_decide_eq_true_2 by done. rewrite decide_True by done.
    eexists. split; [done |]. unfold second_inv. cbn [fst snd].
    split; [done |]. split.
    + intros j p Hj. rewrite (Hpt j p Hj). destruct (decide (j = i)) as [->|Hji].
      * assert (p = (ch, ch)) as -> by congruence.
        rewrite (spec_colour_green i ch Hp). unfold is_green. cbn [fst snd].
        by decide_cases.
      * by decide_cases.
    + intros c. rewrite Hcount, (earlier_S i _ c Hp). unfold is_green. cbn [fst snd].
      rewrite (bool_decide_eq_true_2 (ch = ch)) by done.
      rewrite andb_false_r. lia.
  - rewrite bool_decide_eq_false_2 by done. rewrite decide_False by done.
    rewrite list_in_left_over, Hcount.
    pose proof (spec_colour_not_green i ch a Hp Hne) as Hcol.
    case_bool_decide as Hlt.
    + destruct (list_index_consume ch ac) as (k & Hk & Hklt & Hcons);
        [rewrite Hcount; lia |].
      rewrite list_set_Some by lia. cbn [mbind option_bind].
      rewrite Hk. cbn [mbind option_bind].
      rewrite list_set_Some by lia. cbn [mbind option_bind].
      eexists. split; [done |]. unfold second_inv. cbn [fst snd].
      split; [by rewrite length_insert |]. split.
      * intros j p Hj. destruct (decide (j = i)) as [->|Hji].
        -- rewrite list_lookup_insert_eq by lia. rewrite Hcol. by decide_cases.
        -- rewrite list_lookup_insert_ne by done. rewrite (Hpt j p Hj). by decide_cases.
      * intros c. rewrite Hcons, Hcount, (earlier_S i _ c Hp).
        unfold is_green. cbn [fst snd].
        rewrite (bool_decide_eq_false_2 (ch = a)) by done. cbn [negb].
        rewrite andb_true_r. by decide_cases.
    + eexists. split; [done |]. unfold second_inv. cbn [fst snd].
      split; [done |]. split.
      * intros j p Hj. rewrite (Hpt j p Hj). destruct (decide (j = i)) as [->|Hji].
        -- assert (p = (ch, a)) as -> by congruence. rewrite Hcol.
           unfold is_green. cbn [fst snd]. by decide_cases.
        -- by decide_cases.
      * intros c. rewrite Hcount, (earlier_S i _ c Hp).
        unfold is_green. cbn [fst snd].
        rewrite (bool_decide_eq_false_2 (ch = a)) by done. cbn [negb].
        rewrite andb_true_r. by decide_cases.
Qed.

(** The function computes the rule of the specification. *)
Lemma score_guess_spec_score :
  score_guess guess answer = Some (spec_score guess answer).
Proof.
  unfold score_guess. rewrite first_pass_spec. cbn [mbind option_bind].
  destruct (for_enumerate_inv second_pass_body (second_inv guess answer)
              (Str.chars guess) (greens guess answer, unconsumed guess answer))
    as ([res ac] & Hrun & Hres & Hpt & _).
  - intros i ch st. apply second_pass_step.
  - unfold second_inv. cbn [fst snd].
    split; [unfold greens; by rewrite length_fmap, length_pairs |]. split.
    + intros j p Hj. rewrite decide_False by lia.
      unfold greens. by rewrite list_lookup_fmap, Hj.
    + intros c. rewrite left_over_unconsumed. unfold earlier. rewrite take_0. simpl. lia.
  - rewrite Hrun. cbn [mbind option_bind fst]. f_equal.
    rewrite length_chars, Hguess in Hpt. cbn [fst snd] in *.
    apply list_eq. intros j. unfold spec_score. rewrite list_lookup_fmap.
    destruct (decide (j < WORD_LENGTH)) as [Hj|Hj].
    + destruct (pairs_lookup_lt j Hj) as (g & a & _ & _ & Hp).
      rewrite (Hpt j _ Hp), decide_True by done.
      by rewrite lookup_seq_lt.
    + rewrite lookup_ge_None_2 by lia.
      rewrite lookup_ge_None_2; [done |]. rewrite length_seq. lia.
Qed.

End passes.

(** ** Counting the colours of one letter *)

Section counting.
Variables guess answer : string.
Hypothesis Hguess : Str.len guess = WORD_LENGTH.
Hypothesis Hanswer : Str.len answer = WORD_LENGTH.

Lemma spec_score_lookup (i : nat) :
  i < WORD_LENGTH → spec_score guess answer !! i = Some (spec_colour guess answer i).
Proof.
  intros Hi. unfold spec_score. by rewrite list_lookup_fmap, lookup_seq_lt.
Qed.

Lemma greens_of_S (i : nat) (p : ascii * ascii) (c : ascii) :
  pairs guess answer !! i = Some p →
  greens_of guess answer (S i) c
  = greens_of guess answer i c + (if bool_decide (p.1 = c) && is_green p then 1 else 0).
Proof using Type.
  clear Hguess Hanswer. intros Hp. unfold greens_of. rewrite (take_S_r _ _ _ Hp), count_if_app. simpl. lia.
Qed.

(** The yellows of a letter are its first non-green occurrences, as many
    as the greens have left of it in the answer. *)
Lemma yellows_before_min (c : ascii) (i : nat) :
  i ≤ WORD_LENGTH →
  yellows_before guess (spec_score guess answer) i c
  = earlier guess answer i c `min` remaining guess answer c.
Proof.
  unfold yellows_before. induction i as [|i IH]; intros Hi.
  - unfold earlier. rewrite take_0. simpl. lia.
  - rewrite seq_S, count_if_app, IH by lia. simpl.
    destruct (pairs_lookup_lt guess answer Hguess Hanswer i) as (g & a & Hg & Ha & Hp);
      [lia |].
    rewrite (earlier_S guess answer i _ c Hp), spec_score_lookup, Hg by lia.
    unfold is_green. cbn [fst snd].
    destruct (decide (g = a)) as [<-|Hne].
    + rewrite (spec_colour_green guess answer i g Hp).
      rewrite (bool_decide_eq_true_2 (g = g)) by done.
      rewrite andb_false_r. rewrite bool_decide_eq_false_2; [lia |].
      intros [_ [=]].
    + rewrite (spec_colour_not_green guess answer i g a Hp Hne).
      rewrite (bool_decide_eq_false_2 (g = a)) by done. cbn [negb].
      rewrite andb_true_r.
      destruct (decide (g = c)) as [->|Hgc].
      * rewrite (bool_decide_eq_true_2 (c = c)) by done.
        destruct (decide (earlier guess answer i c < remaining guess answer c)).
        -- rewrite bool_decide_eq_true_2 by done. lia.
        -- rewrite bool_decide_eq_false_2; [lia |]. intros [_ [=]].
      * rewrite (bool_decide_eq_false_2 (g = c)) by done.
        rewrite bool_decide_eq_false_2; [lia |]. intros [[=] _]. done.
Qed.

Lemma marked_upto (c : ascii) (i : nat) :
  i ≤ WORD_LENGTH →
  count_if (λ j, bool_decide
                   (Str.chars guess !! j = Some c
                    ∧ (spec_score guess answer !! j = Some green
                       ∨ spec_score guess answer !! j = Some yellow)))
           (seq 0 i)
  = greens_of guess answer i c
    + earlier guess answer i c `min` remaining guess answer c.
Proof.
  induction i as [|i IH]; intros Hi.
  - unfold greens_of, earlier. rewrite take_0. simpl. lia.
  - rewrite seq_S, count_if_app, IH by lia. simpl.
    destruct (pairs_lookup_lt guess answer Hguess Hanswer i) as (g & a & Hg & Ha & Hp);
      [lia |].
    rewrite (earlier_S guess answer i _ c Hp), (greens_of_S i _ c Hp).
    rewrite spec_score_lookup, Hg by lia.
    unfold is_green. cbn [fst snd].
    destruct (decide (g = a)) as [<-|Hne].
    + rewrite (spec_colour_green guess answer i g Hp).
      rewrite (bool_decide_eq_true_2 (g = g)) by done.
      rewrite andb_false_r, andb_true_r.
      destruct (decide (g = c)) as [->|Hgc].
      * rewrite (bool_decide_eq_true_2 (c = c)) by done.
        rewrite bool_decide_eq_true_2 by (split; [done | by left]). lia.
      * rewrite (bool_decide_eq_false_2 (g = c)) by done.
        rewrite bool_decide_eq_false_2; [lia |]. intros [[=] _]. done.
    + rewrite (spec_colour_not_green guess answer i g a Hp Hne).
      rewrite (bool_decide_eq_false_2 (g = a)) by done. cbn [negb].
      rewrite andb_true_r, andb_false_r.
      destruct (decide (g = c)) as [->|Hgc].
      * rewrite (bool_decide_eq_true_2 (c = c)) by done.
        destruct (decide (earlier guess answer i c < remaining guess answer c)).
        -- rewrite bool_decide_eq_true_2 by (split; [done | by right]). lia.
        -- rewrite bool_decide_eq_false_2; [lia |]. intros [_ [[=]|[=]]].
      * rewrite (bool_decide_eq_false_2 (g = c)) by done.
        rewrite bool_decide_eq_false_2; [lia |]. intros [[=] _]. done.
Qed.

Lemma occurrences_guess (c : ascii) :
  occurrences c guess
  = greens_of guess answer WORD_LENGTH c + earlier guess answer WORD_LENGTH c.
Proof.
  unfold occurrences, greens_of, earlier.
  rewrite take_ge by (rewrite length_pairs; done).
  unfold pairs.
  rewrite <- (fst_zip (Str.chars guess) (Str.chars answer)) at 1
    by (rewrite !length_chars; lia).
  rewrite count_if_fmap.
  generalize (zip (Str.chars guess) (Str.chars answer)). intros l.
  induction l as [|p l IH]; simpl; [done |]. rewrite IH.
  destruct (bool_decide (p.1 = c)), (is_green p); simpl; lia.
Qed.

Lemma occurrences_answer (c : ascii) :
  occurrences c answer
  = greens_of guess answer WORD_LENGTH c + remaining guess answer c.
Proof.
  unfold occurrences, greens_of, remaining.
  rewrite take_ge by (rewrite length_pairs; done).
  unfold pairs.
  rewrite <- (snd_zip (Str.chars guess) (Str.chars answer)) at 1
    by (rewrite !length_chars; lia).
  rewrite count_if_fmap.
  generalize (zip (Str.chars guess) (Str.chars answer)). intros l.
  induction l as [|p l IH]; simpl; [done |]. rewrite IH.
  unfold is_green. destruct p as [g a]. simpl. by decide_cases.
Qed.

End counting.

(** ** The claims about [score_guess] *)

Lemma colours_distinct : green ≠ yellow ∧ green ≠ grey ∧ yellow ≠ grey.
Proof. by repeat split. Qed.

Lemma spec_colour_cases (guess answer : string) (i : nat) :
  spec_colour guess answer i = green
  ∨ spec_colour guess answer i = yellow
  ∨ spec_colour guess answer i = grey.
Proof.
  unfold spec_colour. destruct (pairs guess answer !! i) as [[g a]|]; [| by right; right].
  destruct (decide (g = a)); [by left |].
  destruct (decide (earlier guess answer i g < remaining guess answer g));
    [by right; left | by right; right].
Qed.

(** C1. For a guess and an answer of [WORD_LENGTH] characters (so for
    upper-case alphabetic ones), [score_guess] returns, and at a position
    [i] that is not green (the letters [g] of the guess and [a] of the answer
    differ) the colour is yellow exactly when [g] still occurs in the
    remaining letters of the answer once the greens and the earlier yellows
    of [g] have each consumed one occurrence; these yellows are the first
    non-green occurrences of [g], left to right, up to the remaining count,
    and the other non-green occurrences are grey. *)
Theorem C1_yellow_rule (guess answer : string) :
  Str.len guess = WORD_LENGTH → Str.len answer = WORD_LENGTH →
  ∃ res, score_guess guess answer = Some res
    ∧ ∀ i g a,
        Str.chars guess !! i = Some g → Str.chars answer !! i = Some a →
        (res !! i = Some green ↔ g = a)
        ∧ (g ≠ a →
           (res !! i = Some yellow
            ↔ yellows_before guess res i g < remaining guess answer g)
           ∧ (res !! i = Some yellow
              ↔ earlier guess answer i g < remaining guess answer g)
           ∧ (res !! i = Some grey
              ↔ remaining guess answer g ≤ earlier guess answer i g)).
Proof.
  intros Hguess Hanswer. exists (spec_score guess answer).
  split; [by apply score_guess_spec_score |].
  intros i g a Hg Ha.
  assert (i < WORD_LENGTH) as Hi.
  { apply lookup_lt_Some in Hg. by rewrite length_chars, Hguess in Hg. }
  assert (pairs guess answer !! i = Some (g, a)) as Hp by by apply lookup_zip_Some.
  rewrite (spec_score_lookup guess answer i Hi).
  destruct (decide (g = a)) as [<-|Hne].
  - rewrite (spec_colour_green guess answer i g Hp). split; [done |]. done.
  - rewrite (spec_colour_not_green guess answer i g a Hp Hne).
    split; [split; [| done] |].
    { destruct (decide (earlier guess answer i g < remaining guess answer g));
        intros [=]. }
    intros _.
    rewrite (yellows_before_min guess answer Hguess Hanswer g i) by lia.
    destruct (decide (earlier guess answer i g < remaining guess answer g)).
    + split; [split; [lia | done] |]. split; [split; [done | done] |].
      split; [intros [=] | lia].
    + split; [split; [intros [=] | lia] |]. split; [split; [intros [=] | lia] |].
      split; [lia | done].
Qed.

Lemma C1_yellow_rule_witness :
  ∃ res, score_guess "SPEARS" "PEARLS" = Some res
    ∧ ∀ i g a,
        Str.chars "SPEARS" !! i = Some g → Str.chars "PEARLS" !! i = Some a →
        (res !! i = Some green ↔ g = a)
        ∧ (g ≠ a →
           (res !! i = Some yellow
            ↔ yellows_before "SPEARS" res i g < remaining "SPEARS" "PEARLS" g)
           ∧ (res !! i = Some yellow
              ↔ earlier "SPEARS" "PEARLS" i g < remaining "SPEARS" "PEARLS" g)
           ∧ (res !! i = Some grey
              ↔ remaining "SPEARS" "PEARLS" g ≤ earlier "SPEARS" "PEARLS" i g)).
Proof. apply (C1_yellow_rule "SPEARS" "PEARLS"); reflexivity. Defined.

Lemma all_green_spec (res : list string) :
  all_green res = true ↔ ∀ i x, res !! i = Some x → x = green.
Proof.
  unfold all_green. induction res as [|y res IH]; simpl.
  - split; [intros _ i x [=] | done].
  - rewrite andb_true_iff, IH, bool_decide_eq_true. split.
    + intros [-> Hres] [|i] x; simpl; [by intros [= <-] | apply Hres].
    + intros Hall. split; [by apply (Hall 0) | intros i x; apply (Hall (S i))].
Qed.

(** C2. For a guess and an answer of [WORD_LENGTH] characters,
    [score_guess] returns a list of exactly [WORD_LENGTH] elements, each of
    them green, yellow or grey, and the list is all green if and only if the
    guess equals the answer. *)
Theorem C2_feedback_shape (guess answer : string) :
  Str.len guess = WORD_LENGTH → Str.len answer = WORD_LENGTH →
  ∃ res, score_guess guess answer = Some res
    ∧ length res = WORD_LENGTH
    ∧ (∀ x, x ∈ res → x = green ∨ x = yellow ∨ x = grey)
    ∧ (all_green res = true ↔ guess = answer).
Proof.
  intros Hguess Hanswer. exists (spec_score guess answer).
  split; [by apply score_guess_spec_score |].
  split; [unfold spec_score; by rewrite length_fmap, length_seq |].
  split.
  - intros x Hx. unfold spec_score in Hx.
    apply list_elem_of_fmap in Hx as (i & -> & _). apply spec_colour_cases.
  - rewrite all_green_spec. split.
    + intros Hall. apply chars_inj. apply list_eq. intros i.
      destruct (decide (i < WORD_LENGTH)) as [Hi|Hi].
      * destruct (pairs_lookup_lt guess answer Hguess Hanswer i Hi)
          as (g & a & Hg & Ha & Hp).
        rewrite Hg, Ha. f_equal.
        destruct (decide (g = a)) as [|Hne]; [done |].
        pose proof (Hall i _ (spec_score_lookup guess answer i Hi)) as Hcol.
        rewrite (spec_colour_not_green guess answer i g a Hp Hne) in Hcol.
        by destruct (decide (earlier guess answer i g < remaining guess answer g)).
      * rewrite !lookup_ge_None_2; [done | |]; rewrite length_chars; lia.
    + intros <- i x Hx.
      assert (i < WORD_LENGTH) as Hi.
      { apply lookup_lt_Some in Hx. unfold spec_score in Hx.
        by rewrite length_fmap, length_seq in Hx. }
      rewrite (spec_score_lookup guess guess i Hi) in Hx. injection Hx as <-.
      destruct (pairs_lookup_lt guess guess Hguess Hguess i Hi)
        as (g & a & Hg & Ha & Hp).
      assert (a = g) as -> by congruence.
      by apply spec_colour_green with g.
Qed.

Lemma C2_feedback_shape_witness :
  ∃ res, score_guess "OCEANS" "OCEANS" = Some res
    ∧ length res = WORD_LENGTH
    ∧ (∀ x, x ∈ res → x = green ∨ x = yellow ∨ x = grey)
    ∧ (all_green res = true ↔ "OCEANS" = "OCEANS").
Proof. apply (C2_feedback_shape "OCEANS" "OCEANS"); reflexivity. Defined.

(** C9. For a guess and an answer of [WORD_LENGTH] characters and every
    letter [c], the positions where the guess holds [c] and the feedback is
    green or yellow are as many as the minimum of the occurrences of [c] in
    the guess and in the answer. *)
Theorem C9_marked_is_min (guess answer : string) (c : ascii) :
  Str.len guess = WORD_LENGTH → Str.len answer = WORD_LENGTH →
  ∃ res, score_guess guess answer = Some res
    ∧ marked guess res c = occurrences c guess `min` occurrences c answer.
Proof.
  intros Hguess Hanswer. exists (spec_score guess answer).
  split; [by apply score_guess_spec_score |].
  unfold marked.
  rewrite (marked_upto guess answer Hguess Hanswer c WORD_LENGTH) by done.
  rewrite (occurrences_guess guess answer Hguess Hanswer c).
  rewrite (occurrences_answer guess answer Hguess Hanswer c).
  lia.
Qed.

Lemma C9_marked_is_min_witness :
  ∃ res, score_guess "SEEDED" "REEFUS" = Some res
    ∧ marked "SEEDED" res "E" = occurrences "E" "SEEDED" `min` occurrences "E" "REEFUS".
Proof. apply (C9_marked_is_min "SEEDED" "REEFUS" "E"); reflexivity. Defined.

(** ** [select_daily_word] *)

Lemma hex_value_hex_digit (d : Z) :
  (0 ≤ d < 16)%Z → hex_value (Sha256.hex_digit d) = Some d.
Proof.
  intros [Hlo Hhi]. rewrite <- (Z2Nat.id d) at 2 by done.
  assert (Z.to_nat d < 16) as Hn by lia.
  unfold Sha256.hex_digit. generalize dependent (Z.to_nat d). clear. intros n Hn.
  do 16 (destruct n as [|n]; [reflexivity |]). lia.
Qed.

(** Reading back in base 16 what [hex] wrote gives the bytes' integer. *)
Lemma int16_from_hex (bs : list Z) (acc : Z) :
  Forall is_byte bs →
  int16_from acc (Sha256.hex bs) = Some (fold_left (λ a b, 256 * a + b)%Z bs acc).
Proof.
  intros Hbs. revert acc. induction Hbs as [|b bs Hb _ IH]; intros acc; [done |].
  destruct Hb as [Hlo Hhi]. cbn [Sha256.hex int16_from].
  assert (0 ≤ b `div` 16 < 16)%Z as Hq
    by (split; [apply Z.div_pos; lia | apply Z.div_lt_upper_bound; lia]).
  assert (0 ≤ b `mod` 16 < 16)%Z as Hr by (apply Z.mod_pos_bound; lia).
  rewrite (hex_value_hex_digit _ Hq). cbn [mbind option_bind].
  rewrite (hex_value_hex_digit _ Hr). cbn [mbind option_bind]. rewrite IH. cbn [fold_left]. do 2 f_equal.
  pose proof (Z.div_mod b 16). lia.
Qed.

Lemma be_bytes_is_byte (n : nat) (x : Z) : Forall is_byte (Sha256.be_bytes n x).
Proof.
  induction n as [|n IH]; simpl; constructor; [| done].
  apply Z.mod_pos_bound. lia.
Qed.

Lemma digest_is_byte (msg : list Z) : Forall is_byte (Sha256.digest msg).
Proof.
  unfold Sha256.digest. generalize (fold_left
    (λ H i, Sha256.compress H (firstn 64 (skipn (64 * i) (Sha256.pad msg))))
    (seq 0 (length (Sha256.pad msg) / 64)) Sha256.H0).
  intros H. induction H as [|w H IH]; cbn [flat_map]; [constructor |].
  apply Forall_app. split; [apply (be_bytes_is_byte 4) | done].
Qed.

Lemma length_round (v : list Z) (kw : Z * Z) :
  length (Sha256.round v kw) = length v.
Proof. by do 9 (destruct v as [|? v]; [done |]). Qed.

Lemma length_compress (H block : list Z) :
  length (Sha256.compress H block) = length H.
Proof.
  unfold Sha256.compress. rewrite length_zip_with.
  assert (∀ l v, length (fold_left Sha256.round l v) = length v) as Hfold.
  { intros l. induction l as [|kw l IH]; intros v; simpl; [done |].
    by rewrite IH, length_round. }
  rewrite Hfold. lia.
Qed.

(** The digest is 32 bytes long. *)
Lemma length_digest (msg : list Z) : length (Sha256.digest msg) = 32.
Proof.
  unfold Sha256.digest.
  assert (∀ l H, length (fold_left
            (λ H i, Sha256.compress H (firstn 64 (skipn (64 * i) (Sha256.pad msg)))) l H)
          = length H) as Hfold.
  { intros l. induction l as [|i l IH]; intros H; simpl; [done |].
    by rewrite IH, length_compress. }
  specialize (Hfold (seq 0 (length (Sha256.pad msg) / 64)) Sha256.H0).
  revert Hfold. generalize (fold_left
    (λ H i, Sha256.compress H (firstn 64 (skipn (64 * i) (Sha256.pad msg))))
    (seq 0 (length (Sha256.pad msg) / 64)) Sha256.H0).
  intros H HH. by do 9 (destruct H as [|? H]; [done |]).
Qed.

(** [int(h, 16)] of the hexadecimal digest is the digest read as an
    integer, most significant byte first. *)
Lemma int16_hexdigest (msg : list Z) :
  int16 (Sha256.hexdigest msg) = Some (Sha256.be_int (Sha256.digest msg)).
Proof.
  unfold Sha256.hexdigest, int16, Sha256.be_int.
  rewrite <- (int16_from_hex _ 0%Z (digest_is_byte msg)).
  pose proof (length_digest msg) as Hlen.
  by destruct (Sha256.digest msg).
Qed.

Lemma be_int_nonneg (bs : list Z) : Forall is_byte bs → (0 ≤ Sha256.be_int bs)%Z.
Proof.
  unfold Sha256.be_int. intros Hbs.
  assert (∀ acc, (0 ≤ acc)%Z → (0 ≤ fold_left (λ a b, 256 * a + b) bs acc)%Z) as Hfold.
  { induction Hbs as [|b bs [Hlo Hhi] _ IH]; intros acc Hacc; simpl; [done |].
    apply IH. lia. }
  by apply Hfold.
Qed.

(** The words of the list are upper-case already, alphabetic and of
    [WORD_LENGTH] letters. *)
Lemma WORD_LIST_words (w : string) :
  w ∈ WORD_LIST →
  Str.upper w = w ∧ Str.len w = WORD_LENGTH ∧ Str.isalpha w = true.
Proof.
  revert w. apply Forall_forall. unfold WORD_LIST.
  repeat (constructor; [by vm_compute |]). constructor.
Qed.

(** The function reads the word at the index the digest gives. *)
Lemma select_daily_word_index (date_key : string) :
  select_daily_word date_key
  = Str.upper <$> WORD_LIST !! Z.to_nat
      (Sha256.be_int (Sha256.digest (encode_utf8 date_key)) mod 20).
Proof.
  unfold select_daily_word. rewrite int16_hexdigest. cbn [mbind option_bind].
  change (Z.of_nat (length WORD_LIST)) with 20%Z.
  by destruct (WORD_LIST !! _).
Qed.

Lemma digest_index_lt (msg : list Z) :
  Z.to_nat (Sha256.be_int (Sha256.digest msg) mod 20) < length WORD_LIST.
Proof.
  pose proof (Z.mod_pos_bound (Sha256.be_int (Sha256.digest msg)) 20).
  change (length WORD_LIST) with 20. lia.
Qed.

(** The answer of a day exists and is a word of [WORD_LENGTH] letters. *)
Lemma select_daily_word_Some (date_key : string) :
  ∃ answer, select_daily_word date_key = Some answer ∧ Str.len answer = WORD_LENGTH.
Proof.
  rewrite select_daily_word_index.
  destruct (lookup_lt_is_Some_2 _ _ (digest_index_lt (encode_utf8 date_key))) as [w Hw].
  rewrite Hw. exists (Str.upper w). split; [done |].
  assert (w ∈ WORD_LIST) as Hin by (apply list_elem_of_lookup; eauto).
  destruct (WORD_LIST_words w Hin) as (-> & Hlen & _). done.
Qed.

(** C7. [select_daily_word] returns the entry of [WORD_LIST] at index
    [h mod 20], upper-cased, where [h] is the SHA-256 digest of the UTF-8
    bytes of the date key read as a non-negative integer.  The result
    depends on nothing but the date key, is a word of the list and has
    [WORD_LENGTH] letters.  It holds for every date key, the 8-character
    ones among them. *)
Theorem C7_select_daily_word (date_key : string) :
  let h := Sha256.be_int (Sha256.digest (encode_utf8 date_key)) in
  ∃ w, (0 ≤ h)%Z
    ∧ length WORD_LIST = 20
    ∧ WORD_LIST !! Z.to_nat (h mod 20) = Some w
    ∧ select_daily_word date_key = Some (Str.upper w)
    ∧ Str.upper w ∈ WORD_LIST
    ∧ Str.len (Str.upper w) = WORD_LENGTH
    ∧ Str.isalpha (Str.upper w) = true.
Proof.
  intros h.
  assert (0 ≤ h)%Z as Hh by apply be_int_nonneg, digest_is_byte.
  destruct (lookup_lt_is_Some_2 _ _ (digest_index_lt (encode_utf8 date_key))) as [w Hw].
  fold h in Hw. exists w. split; [done |]. split; [done |]. split; [done |].
  assert (w ∈ WORD_LIST) as Hin by (apply list_elem_of_lookup; eauto).
  destruct (WORD_LIST_words w Hin) as (Hup & Hlen & Halpha).
  rewrite Hup. split; [| done].
  rewrite select_daily_word_index. fold h. rewrite Hw. simpl. by rewrite Hup.
Qed.

Example select_daily_word_20240101 : select_daily_word "20240101" = Some "BRIGHT".
Proof. vm_compute. reflexivity. Qed.

(** ** The store *)

Lemma get_state_snd (date token : string) (STORE : Store) :
  (get_state_for_today date token STORE).2 = current STORE token date.
Proof.
  unfold get_state_for_today, current, record_at.
  destruct (STORE !! token) as [days|] eqn:Htok; simpl.
  - rewrite Htok. simpl. by destruct (days !! date).
  - by rewrite lookup_insert_eq.
Qed.

Lemma get_state_record_at (date token t d : string) (STORE : Store) :
  record_at (get_state_for_today date token STORE).1 t d
  = if decide (t = token ∧ d = date) then Some (current STORE token date)
    else record_at STORE t d.
Proof.
  unfold get_state_for_today, current, record_at.
  destruct (STORE !! token) as [days|] eqn:Htok; simpl.
  - rewrite Htok. simpl. destruct (days !! date) as [state|] eqn:Hday; simpl.
    + case_decide as Hk; [| done]. destruct Hk as [-> ->]. by rewrite Htok; simpl; rewrite Hday.
    + destruct (decide (t = token)) as [->|Ht].
      * rewrite lookup_insert_eq. simpl. destruct (decide (d = date)) as [->|Hd].
        -- by rewrite lookup_insert_eq, decide_True.
        -- rewrite lookup_insert_ne by done. rewrite decide_False by (intros [_ ?]; done).
           by rewrite Htok.
      * rewrite lookup_insert_ne by done. by rewrite decide_False by (intros [? _]; done).
  - rewrite lookup_insert_eq. simpl. rewrite lookup_empty. cbn [fst].
    destruct (decide (t = token)) as [->|Ht].
    + rewrite lookup_insert_eq. simpl. destruct (decide (d = date)) as [->|Hd].
      * by rewrite lookup_insert_eq, decide_True.
      * rewrite lookup_insert_ne by done. rewrite lookup_empty.
        rewrite decide_False by (intros [_ ?]; done). by rewrite Htok.
    + rewrite !lookup_insert_ne by done. by rewrite decide_False by (intros [? _]; done).
Qed.

(** An existing record is returned as it is, and the store is the same. *)
Lemma get_state_existing (date token : string) (STORE : Store) (state : State.t) :
  record_at STORE token date = Some state →
  get_state_for_today date token STORE = (STORE, state).
Proof.
  unfold record_at, get_state_for_today. intros Hrec.
  destruct (STORE !! token) as [days|] eqn:Htok; [| done]. simpl in *.
  rewrite Htok. simpl. by rewrite Hrec.
Qed.

Lemma record_at_write_state (date token t d : string) (state : State.t) (STORE : Store) :
  record_at (write_state date token state STORE) t d
  = if decide (t = token ∧ d = date) then Some state else record_at STORE t d.
Proof.
  unfold write_state, record_at.
  destruct (decide (t = token)) as [->|Ht].
  - rewrite lookup_insert_eq. simpl. destruct (decide (d = date)) as [->|Hd].
    + by rewrite lookup_insert_eq, decide_True.
    + rewrite lookup_insert_ne by done. rewrite decide_False by (intros [_ ?]; done).
      by destruct (STORE !! token).
  - rewrite lookup_insert_ne by done. by rewrite decide_False by (intros [? _]; done).
Qed.

Lemma get_state_current (date token t d : string) (STORE : Store) :
  current (get_state_for_today date token STORE).1 t d = current STORE t d.
Proof.
  unfold current at 1. rewrite get_state_record_at.
  case_decide as Hk; [| done]. by destruct Hk as [-> ->].
Qed.

(** A second access finds the record the first one left. *)
Lemma get_state_twice (date token : string) (STORE : Store) :
  get_state_for_today date token (get_state_for_today date token STORE).1
  = ((get_state_for_today date token STORE).1, current STORE token date).
Proof.
  apply get_state_existing. rewrite get_state_record_at. by rewrite decide_True.
Qed.

(** ** [GameStatus.get] *)

Lemma status_get_eq (date token answer : string) (STORE : Store) :
  select_daily_word date = Some answer →
  GameStatus.get date token STORE
  = ((get_state_for_today date token STORE).1,
     Return (status_payload date answer (current STORE token date))).
Proof.
  intros Hsel. unfold GameStatus.get. rewrite Hsel.
  rewrite <- get_state_snd. by destruct (get_state_for_today date token STORE).
Qed.

(** C8. [GameStatus.get] answers without an error and changes no record:
    every record of the store is found again as it was, and the only record
    the store can gain is the empty one of the caller's token and day,
    created by the first access.  A second call right after, for the same
    token and day, returns the same payload and leaves the store as the
    first call left it. *)
Theorem C8_status_reads_only (date token : string) (STORE : Store) :
  let STORE1 := (GameStatus.get date token STORE).1 in
  (∃ payload, (GameStatus.get date token STORE).2 = Return payload)
  ∧ (∀ t d state, record_at STORE t d = Some state → record_at STORE1 t d = Some state)
  ∧ (∀ t d state, record_at STORE1 t d = Some state →
       record_at STORE t d = Some state
       ∨ (t = token ∧ d = date ∧ record_at STORE t d = None ∧ state = State.fresh))
  ∧ GameStatus.get date token STORE1 = (STORE1, (GameStatus.get date token STORE).2).
Proof.
  destruct (select_daily_word_Some date) as (answer & Hsel & _).
  rewrite (status_get_eq date token answer STORE Hsel). cbn [fst snd].
  split; [eauto |]. split; [| split].
  - intros t d state Hrec. rewrite get_state_record_at.
    case_decide as Hk; [| done]. destruct Hk as [-> ->].
    unfold current. by rewrite Hrec.
  - intros t d state. rewrite get_state_record_at.
    case_decide as Hk; [| by left]. destruct Hk as [-> ->].
    unfold current. destruct (record_at STORE token date) as [state'|]; simpl.
    + by left.
    + intros [= <-]. by right.
  - rewrite (status_get_eq date token answer _ Hsel).
    by rewrite get_state_twice, get_state_current.
Qed.

(** ** Validation of a guess *)

Lemma char_isalpha_not_space (c : ascii) :
  Str.char_isalpha c = true → Str.char_isspace c = false.
Proof. destruct c as [[|] [|] [|] [|] [|] [|] [|] [|]]; by vm_compute. Qed.

Lemma char_upper_isalpha (c : ascii) :
  Str.char_isalpha (Str.char_upper c) = Str.char_isalpha c.
Proof. destruct c as [[|] [|] [|] [|] [|] [|] [|] [|]]; by vm_compute. Qed.

Lemma char_upper_twice (c : ascii) :
  Str.char_upper (Str.char_upper c) = Str.char_upper c.
Proof. destruct c as [[|] [|] [|] [|] [|] [|] [|] [|]]; by vm_compute. Qed.

Lemma len_upper (s : string) : Str.len (Str.upper s) = Str.len s.
Proof. unfold Str.len. induction s as [|c s IH]; simpl; [done | by rewrite IH]. Qed.

Lemma all_alpha_upper (s : string) : Str.all_alpha (Str.upper s) = Str.all_alpha s.
Proof.
  induction s as [|c s IH]; simpl; [done |]. by rewrite char_upper_isalpha, IH.
Qed.

Lemma isalpha_upper (s : string) : Str.isalpha (Str.upper s) = Str.isalpha s.
Proof.
  destruct s as [|c s]; [done |]. unfold Str.isalpha. cbn [Str.upper].
  apply (all_alpha_upper (String c s)).
Qed.

Lemma upper_twice (s : string) : Str.upper (Str.upper s) = Str.upper s.
Proof.
  induction s as [|c s IH]; simpl; [done |]. by rewrite char_upper_twice, IH.
Qed.

Lemma isalpha_all_alpha (s : string) : Str.isalpha s = true → Str.all_alpha s = true.
Proof. by destruct s. Qed.

(** There is nothing to strip from an alphabetic string. *)
Lemma strip_alpha (s : string) : Str.isalpha s = true → Str.strip s = s.
Proof.
  intros Halpha. apply isalpha_all_alpha in Halpha. unfold Str.strip.
  assert (Str.lstrip s = s) as ->.
  { destruct s as [|c s]; [done |]. simpl in *.
    apply andb_true_iff in Halpha as [Hc _].
    by rewrite (char_isalpha_not_space c Hc). }
  induction s as [|c s IH]; [done |]. simpl in *.
  apply andb_true_iff in Halpha as [Hc Hs]. rewrite (IH Hs).
  rewrite (char_isalpha_not_space c Hc). by destruct s.
Qed.

Lemma guess_validate_spec (s : string) :
  GuessRequestSchema.guess_validate s = true
  ↔ Str.len s = WORD_LENGTH ∧ Str.isalpha s = true.
Proof.
  unfold GuessRequestSchema.guess_validate.
  by rewrite andb_true_iff, bool_decide_eq_true.
Qed.

(** The schema lets through the strings of [WORD_LENGTH] letters, as they
    were sent, and nothing else: the method [validate_guess] never refuses
    what the validator of the field accepted. *)
Lemma load_eq (guess : string) :
  GuessRequestSchema.load guess
  = if GuessRequestSchema.guess_validate guess then Return guess
    else Raise (ValidationError "Invalid value.").
Proof.
  unfold GuessRequestSchema.load.
  destruct (GuessRequestSchema.guess_validate guess) eqn:Hv; [| done].
  apply guess_validate_spec in Hv as [Hlen Halpha].
  unfold GuessRequestSchema.validate_guess.
  rewrite (strip_alpha guess Halpha), Halpha.
  by rewrite bool_decide_eq_true_2.
Qed.

Lemma normalized_alpha (s : string) : Str.isalpha s = true → normalized s = Str.upper s.
Proof. intros Halpha. unfold normalized. by rewrite strip_alpha. Qed.

(** ** [GameGuess.post] *)

Lemma post_body_finished (date token guess_raw answer : string) (STORE : Store) :
  select_daily_word date = Some answer →
  State.finished (current STORE token date) = true →
  GameGuess.post_body date token guess_raw STORE
  = ((get_state_for_today date token STORE).1,
     Return (finished_response (current STORE token date))).
Proof.
  intros Hsel Hfin. unfold GameGuess.post_body. rewrite Hsel.
  rewrite <- get_state_snd in *.
  destruct (get_state_for_today date token STORE) as [STORE1 state].
  cbn [fst snd] in *. by rewrite Hfin.
Qed.

Lemma post_body_invalid (date token guess_raw answer : string) (STORE : Store) :
  select_daily_word date = Some answer →
  State.finished (current STORE token date) = false →
  ¬ (Str.len (normalized guess_raw) = WORD_LENGTH
     ∧ Str.isalpha (normalized guess_raw) = true) →
  GameGuess.post_body date token guess_raw STORE
  = ((get_state_for_today date token STORE).1,
     Raise (ValidationError "Guess must be exactly 6 letters.")).
Proof.
  intros Hsel Hfin Hbad. unfold GameGuess.post_body. rewrite Hsel.
  rewrite <- get_state_snd in *.
  destruct (get_state_for_today date token STORE) as [STORE1 state].
  cbn [fst snd] in *. rewrite Hfin. fold (normalized guess_raw).
  destruct (negb (bool_decide (Str.len (normalized guess_raw) = WORD_LENGTH))
            || negb (Str.isalpha (normalized guess_raw))) eqn:Hchk; [done |].
  apply orb_false_iff in Hchk as [Hlen Halpha].
  apply negb_false_iff in Hlen, Halpha. apply bool_decide_eq_true in Hlen.
  by destruct Hbad.
Qed.

Lemma post_body_scored (date token guess_raw answer : string) (STORE : Store) :
  select_daily_word date = Some answer →
  Str.len answer = WORD_LENGTH →
  State.finished (current STORE token date) = false →
  Str.len (normalized guess_raw) = WORD_LENGTH →
  Str.isalpha (normalized guess_raw) = true →
  let state := current STORE token date in
  let feedback := spec_score (normalized guess_raw) answer in
  let attempts :=
    State.attempts state
      ++ [ {| Entry.guess := normalized guess_raw; Entry.feedback := feedback |} ] in
  let o := outcome_of answer state attempts feedback in
  GameGuess.post_body date token guess_raw STORE
  = (write_state date token o.1.1 (get_state_for_today date token STORE).1,
     Return {| GuessResponse.feedback := feedback;
               GuessResponse.attempts_used := length attempts;
               GuessResponse.max_attempts := MAX_ATTEMPTS;
               GuessResponse.status := o.1.2;
               GuessResponse.message := o.2 |}).
Proof.
  intros Hsel Hanswer Hfin Hlen Halpha. cbn zeta.
  unfold GameGuess.post_body. rewrite Hsel.
  rewrite <- get_state_snd in *.
  destruct (get_state_for_today date token STORE) as [STORE1 state].
  cbn [fst snd] in *. rewrite Hfin. fold (normalized guess_raw).
  rewrite Halpha, bool_decide_eq_true_2 by done. cbn [negb orb].
  rewrite (score_guess_spec_score _ _ Hlen Hanswer).
  unfold outcome_of. rewrite Hfin.
  destruct (all_green (spec_score (normalized guess_raw) answer)); [done |].
  by destruct (bool_decide _).
Qed.

Lemma post_eq (date token guess_raw : string) (STORE : Store) :
  GameGuess.post date token guess_raw STORE
  = if GuessRequestSchema.guess_validate guess_raw
    then GameGuess.post_body date token guess_raw STORE
    else (STORE, Raise (ValidationError "Invalid value.")).
Proof.
  unfold GameGuess.post, blp_arguments. rewrite load_eq.
  by destruct (GuessRequestSchema.guess_validate guess_raw).
Qed.

(** What the schema accepted passes the check of the method too. *)
Lemma validated_normalized (guess_raw : string) :
  GuessRequestSchema.guess_validate guess_raw = true →
  normalized guess_raw = Str.upper guess_raw
  ∧ Str.len (normalized guess_raw) = WORD_LENGTH
  ∧ Str.isalpha (normalized guess_raw) = true.
Proof.
  intros [Hlen Halpha]%guess_validate_spec.
  rewrite (normalized_alpha _ Halpha). by rewrite len_upper, isalpha_upper.
Qed.

(** ** The invariants of the store *)

Lemma record_ok_fresh : record_ok State.fresh.
Proof.
  unfold record_ok, record_inv, State.fresh, MAX_ATTEMPTS. simpl.
  refine (conj (conj _ (conj _ _)) _); [lia | done | by intros i e [=] | ].
  intros _. split; [lia |]. intros e He. by apply not_elem_of_nil in He.
Qed.

Lemma record_ok_current (STORE : Store) (token date : string) :
  store_ok STORE → record_ok (current STORE token date).
Proof.
  intros Hok. unfold current.
  destruct (record_at STORE token date) as [state|] eqn:Hrec; simpl.
  - by apply (Hok token date).
  - apply record_ok_fresh.
Qed.

Lemma store_ok_get_state (date token : string) (STORE : Store) :
  store_ok STORE → store_ok (get_state_for_today date token STORE).1.
Proof.
  intros Hok t d state. rewrite get_state_record_at.
  case_decide as Hk; [| apply Hok]. intros [= <-]. by apply record_ok_current.
Qed.

(** The record an accepted attempt leaves satisfies the invariants. *)
Lemma record_ok_outcome (answer : string) (state : State.t) (e : Entry.t) :
  record_ok state → State.finished state = false →
  record_ok (outcome_of answer state (State.attempts state ++ [e]) (Entry.feedback e)).1.1.
Proof.
  intros [(Hlen & Hwon & Hgreen) Hopen] Hfin.
  destruct (Hopen Hfin) as [Hroom Hnone].
  assert (∀ i e', (State.attempts state ++ [e]) !! i = Some e' →
            all_green (Entry.feedback e') = true →
            e' = e ∧ S i = length (State.attempts state ++ [e])) as Hlast.
  { intros i e' Hi He'. rewrite length_app. simpl.
    apply lookup_app_Some in Hi as [Hi|[Hge Hi]].
    - assert (e' ∈ State.attempts state) as Hin by (apply list_elem_of_lookup; eauto).
      rewrite (Hnone e' Hin) in He'. done.
    - apply list_lookup_singleton_Some in Hi as [Hi ->]. split; [done | lia]. }
  unfold outcome_of.
  destruct (all_green (Entry.feedback e)) eqn:He; [| case_bool_decide as Hmax];
    cbn [fst snd]; unfold record_ok, record_inv;
    cbn [State.attempts State.finished State.won];
    rewrite ?Hfin, length_app in *; simpl in *;
    refine (conj (conj _ (conj _ _)) _).
  - lia.
  - done.
  - intros i e' Hi He'. by destruct (Hlast i e' Hi He') as [_ ->].
  - done.
  - lia.
  - done.
  - intros i e' Hi He'. destruct (Hlast i e' Hi He') as [-> _]. congruence.
  - done.
  - lia.
  - done.
  - intros i e' Hi He'. destruct (Hlast i e' Hi He') as [-> _]. congruence.
  - intros _. split; [lia |].
    intros e' [Hin| ->%list_elem_of_singleton]%elem_of_app; [by apply Hnone | done].
Qed.

Lemma store_ok_post_body (date token guess_raw : string) (STORE : Store) :
  store_ok STORE → store_ok (GameGuess.post_body date token guess_raw STORE).1.
Proof.
  intros Hok.
  destruct (select_daily_word_Some date) as (answer & Hsel & Hanswer).
  destruct (State.finished (current STORE token date)) eqn:Hfin.
  { rewrite (post_body_finished _ _ _ answer) by done. by apply store_ok_get_state. }
  destruct (decide (Str.len (normalized guess_raw) = WORD_LENGTH
                    ∧ Str.isalpha (normalized guess_raw) = true)) as [[Hlen Halpha]|Hbad].
  - rewrite (post_body_scored _ _ _ answer) by done. cbn [fst].
    intros t d state. rewrite record_at_write_state.
    case_decide as Hk; [| by apply store_ok_get_state].
    intros [= <-].
    apply (record_ok_outcome answer (current STORE token date)
             {| Entry.guess := normalized guess_raw;
                Entry.feedback := spec_score (normalized guess_raw) answer |});
      [by apply record_ok_current | done].
  - rewrite (post_body_invalid _ _ _ answer) by done. by apply store_ok_get_state.
Qed.

Lemma reachable_store_ok (STORE : Store) : reachable STORE → store_ok STORE.
Proof.
  induction 1 as [|date token STORE _ IH|date token guess_raw STORE _ IH].
  - intros token date state. unfold record_at. by rewrite lookup_empty.
  - destruct (select_daily_word_Some date) as (answer & Hsel & _).
    rewrite (status_get_eq _ _ answer) by done. by apply store_ok_get_state.
  - rewrite post_eq. destruct (GuessRequestSchema.guess_validate guess_raw); [| done].
    by apply store_ok_post_body.
Qed.

(** C5. In every store the two endpoints can produce from the empty one,
    every record has at most [MAX_ATTEMPTS] attempts, is finished if it is
    won, and has at most one attempt with an all-green feedback; such an
    attempt is the last one of the list and the record is then won. *)
Theorem C5_record_invariants (STORE : Store) (token date : string) (state : State.t) :
  reachable STORE → record_at STORE token date = Some state →
  length (State.attempts state) ≤ MAX_ATTEMPTS
  ∧ (State.won state = true → State.finished state = true)
  ∧ (∀ i j ei ej,
       State.attempts state !! i = Some ei → State.attempts state !! j = Some ej →
       all_green (Entry.feedback ei) = true → all_green (Entry.feedback ej) = true →
       i = j)
  ∧ (∀ i e, State.attempts state !! i = Some e →
       all_green (Entry.feedback e) = true →
       S i = length (State.attempts state) ∧ State.won state = true).
Proof.
  intros Hreach Hrec.
  destruct (reachable_store_ok STORE Hreach token date state Hrec)
    as [(Hlen & Hwon & Hgreen) _].
  split; [done |]. split; [done |]. split; [| done].
  intros i j ei ej Hi Hj Hgi Hgj.
  destruct (Hgreen i ei Hi Hgi) as [Hi' _]. destruct (Hgreen j ej Hj Hgj) as [Hj' _].
  lia.
Qed.

Lemma reachable_submit_all (token : string) (guesses : list string) (STORE : Store) :
  reachable STORE → reachable (submit_all token guesses STORE).
Proof.
  revert STORE. induction guesses as [|g guesses IH]; intros STORE Hreach; simpl; [done |].
  apply IH. by apply reachable_guess.
Qed.

Lemma C5_record_invariants_witness :
  length (State.attempts (current four_misses "tok" day)) ≤ MAX_ATTEMPTS
  ∧ (State.won (current four_misses "tok" day) = true
     → State.finished (current four_misses "tok" day) = true)
  ∧ (∀ i j ei ej,
       State.attempts (current four_misses "tok" day) !! i = Some ei →
       State.attempts (current four_misses "tok" day) !! j = Some ej →
       all_green (Entry.feedback ei) = true → all_green (Entry.feedback ej) = true →
       i = j)
  ∧ (∀ i e, State.attempts (current four_misses "tok" day) !! i = Some e →
       all_green (Entry.feedback e) = true →
       S i = length (State.attempts (current four_misses "tok" day))
       ∧ State.won (current four_misses "tok" day) = true).
Proof.
  apply (C5_record_invariants four_misses "tok" day).
  - apply reachable_submit_all, reachable_empty.
  - vm_compute. reflexivity.
Defined.

Lemma current_write_state (date token : string) (state : State.t) (STORE : Store) :
  current (write_state date token state STORE) token date = state.
Proof. unfold current. by rewrite record_at_write_state, decide_True. Qed.

(** C3. On a record of a reachable store that is not finished, an accepted
    guess is scored against the answer of the day and appended.  If its
    feedback is all green the record becomes finished and won and the status
    is "won", whatever the number of attempts; otherwise, if the attempts
    are now [MAX_ATTEMPTS], the record becomes finished and not won, the
    status is "lost" and the message spells the answer of the day;
    otherwise the record stays unfinished and the status is "in_progress". *)
Theorem C3_outcome_of_a_guess (date token guess_raw : string) (STORE : Store)
    (resp : GuessResponse.t) :
  reachable STORE →
  State.finished (current STORE token date) = false →
  (GameGuess.post date token guess_raw STORE).2 = Return resp →
  ∃ answer state',
    select_daily_word date = Some answer
    ∧ state' = current (GameGuess.post date token guess_raw STORE).1 token date
    ∧ score_guess (normalized guess_raw) answer = Some (GuessResponse.feedback resp)
    ∧ length (State.attempts state') = S (length (State.attempts (current STORE token date)))
    ∧ GuessResponse.attempts_used resp = length (State.attempts state')
    ∧ (all_green (GuessResponse.feedback resp) = true →
       State.finished state' = true ∧ State.won state' = true
       ∧ GuessResponse.status resp = "won")
    ∧ (all_green (GuessResponse.feedback resp) = false →
       length (State.attempts state') = MAX_ATTEMPTS →
       State.finished state' = true ∧ State.won state' = false
       ∧ GuessResponse.status resp = "lost"
       ∧ GuessResponse.message resp = "No attempts left. The word was " +:+ answer +:+ ".")
    ∧ (all_green (GuessResponse.feedback resp) = false →
       length (State.attempts state') ≠ MAX_ATTEMPTS →
       State.finished state' = false ∧ GuessResponse.status resp = "in_progress").
Proof.
  intros Hreach Hfin Hresp.
  destruct (select_daily_word_Some date) as (answer & Hsel & Hanswer).
  exists answer. eexists. split; [done |]. split; [done |].
  rewrite post_eq in *.
  destruct (GuessRequestSchema.guess_validate guess_raw) eqn:Hv; [| done].
  destruct (validated_normalized _ Hv) as (_ & Hlen & Halpha).
  rewrite (post_body_scored _ _ _ answer) in * by done. cbn [fst snd] in *.
  injection Hresp as <-. cbn [GuessResponse.feedback GuessResponse.attempts_used
                              GuessResponse.status GuessResponse.message].
  rewrite current_write_state.
  split; [by apply score_guess_spec_score |].
  destruct (record_ok_current STORE token date (reachable_store_ok _ Hreach)) as [_ Hopen].
  destruct (Hopen Hfin) as [Hroom _].
  unfold outcome_of.
  destruct (all_green (spec_score (normalized guess_raw) answer));
    [| case_bool_decide as Hmax];
    cbn [fst snd State.attempts State.finished State.won];
    rewrite length_app in *; simpl in *;
    (split; [lia |]); (split; [done |]);
    (split; [| split]); intros; try done; try lia.
Qed.

Lemma C3_outcome_of_a_guess_witness :
  ∃ answer state',
    select_daily_word day = Some answer
    ∧ state' = current (GameGuess.post day "tok" "marine" four_misses).1 "tok" day
    ∧ score_guess (normalized "marine") answer
      = Some [grey; grey; yellow; yellow; grey; grey]
    ∧ length (State.attempts state') = S (length (State.attempts (current four_misses "tok" day)))
    ∧ 5 = length (State.attempts state')
    ∧ (all_green [grey; grey; yellow; yellow; grey; grey] = true →
       State.finished state' = true ∧ State.won state' = true ∧ "lost" = "won")
    ∧ (all_green [grey; grey; yellow; yellow; grey; grey] = false →
       length (State.attempts state') = MAX_ATTEMPTS →
       State.finished state' = true ∧ State.won state' = false
       ∧ "lost" = "lost"
       ∧ "No attempts left. The word was BRIGHT."
         = "No attempts left. The word was " +:+ answer +:+ ".")
    ∧ (all_green [grey; grey; yellow; yellow; grey; grey] = false →
       length (State.attempts state') ≠ MAX_ATTEMPTS →
       State.finished state' = false ∧ "lost" = "in_progress").
Proof.
  apply (C3_outcome_of_a_guess day "tok" "marine" four_misses
           {| GuessResponse.feedback := [grey; grey; yellow; yellow; grey; grey];
              GuessResponse.attempts_used := 5;
              GuessResponse.max_attempts := MAX_ATTEMPTS;
              GuessResponse.status := "lost";
              GuessResponse.message := "No attempts left. The word was BRIGHT." |}).
  - apply reachable_submit_all, reachable_empty.
  - vm_compute. reflexivity.
  - vm_compute. reflexivity.
Defined.

(** ** A finished game *)

(** A finished record is a stored one: the store is not touched by reading it. *)
Lemma finished_is_stored (date token : string) (STORE : Store) :
  State.finished (current STORE token date) = true →
  get_state_for_today date token STORE = (STORE, current STORE token date).
Proof.
  intros Hfin. apply get_state_existing. unfold current in *.
  by destruct (record_at STORE token date).
Qed.

Example post_malformed_on_finished :
  State.finished (current won_at_once "tok" day) = true
  ∧ GameGuess.post day "tok" "AB" won_at_once
    = (won_at_once, Raise (ValidationError "Invalid value.")).
Proof. split; vm_compute; reflexivity. Qed.

(** C4, as stated, fails: on the finished game [won_at_once] the malformed
    guess "AB" is refused by the schema, it does not get the response of a
    finished game. *)
Lemma C4_counterexample :
  ¬ (∀ (date token guess_raw : string) (STORE : Store),
       State.finished (current STORE token date) = true →
       GameGuess.post date token guess_raw STORE
       = (STORE, Return (finished_response (current STORE token date)))).
Proof.
  intros Hclaim. destruct post_malformed_on_finished as [Hfin Hpost].
  pose proof (Hclaim day "tok" "AB" won_at_once Hfin) as Hresp.
  apply (f_equal snd) in Hresp, Hpost. cbn [snd] in Hresp, Hpost.
  congruence.
Qed.

(** C4, amended. On a finished record the method itself answers any guess,
    malformed or not, with the status reached ("won" or "lost"), the number
    of attempts used, an empty feedback and the fixed message, without
    looking at the guess.  Behind the request schema, a guess of exactly
    [WORD_LENGTH] letters gets that response, and a guess that is not
    [WORD_LENGTH] letters even once trimmed is refused before the method
    runs.  In every case the store, hence the record, is left as it was. *)
Theorem C4_finished_game (date token guess_raw : string) (STORE : Store) :
  State.finished (current STORE token date) = true →
  GameGuess.post_body date token guess_raw STORE
  = (STORE, Return (finished_response (current STORE token date)))
  ∧ (Str.len guess_raw = WORD_LENGTH → Str.isalpha guess_raw = true →
     GameGuess.post date token guess_raw STORE
     = (STORE, Return (finished_response (current STORE token date))))
  ∧ (¬ (Str.len (Str.strip guess_raw) = WORD_LENGTH
        ∧ Str.isalpha (Str.strip guess_raw) = true) →
     GameGuess.post date token guess_raw STORE
     = (STORE, Raise (ValidationError "Invalid value.")))
  ∧ (GameGuess.post date token guess_raw STORE).1 = STORE
  ∧ GuessResponse.feedback (finished_response (current STORE token date)) = []
  ∧ GuessResponse.attempts_used (finished_response (current STORE token date))
    = length (State.attempts (current STORE token date))
  ∧ (GuessResponse.status (finished_response (current STORE token date)) = "won"
     ∧ State.won (current STORE token date) = true
     ∨ GuessResponse.status (finished_response (current STORE token date)) = "lost"
       ∧ State.won (current STORE token date) = false).
Proof.
  intros Hfin.
  destruct (select_daily_word_Some date) as (answer & Hsel & _).
  assert (GameGuess.post_body date token guess_raw STORE
          = (STORE, Return (finished_response (current STORE token date)))) as Hbody.
  { rewrite (post_body_finished _ _ _ answer) by done.
    by rewrite finished_is_stored. }
  split; [done |]. rewrite post_eq, Hbody.
  split; [| split; [| split; [| split; [done | split; [done |]]]]].
  - intros Hlen Halpha.
    by rewrite (proj2 (guess_validate_spec guess_raw) (conj Hlen Halpha)).
  - intros Hbad.
    destruct (GuessRequestSchema.guess_validate guess_raw) eqn:Hv; [| done].
    apply guess_validate_spec in Hv as [Hlen Halpha].
    destruct Hbad. by rewrite strip_alpha.
  - by destruct (GuessRequestSchema.guess_validate guess_raw).
  - unfold finished_response. simpl.
    destruct (State.won (current STORE token date)); [by left | by right].
Qed.

Lemma C4_finished_game_witness :
  GameGuess.post_body day "tok" "AB" won_at_once
  = (won_at_once, Return (finished_response (current won_at_once "tok" day)))
  ∧ GameGuess.post day "tok" "AB" won_at_once
    = (won_at_once, Raise (ValidationError "Invalid value."))
  ∧ (GameGuess.post day "tok" "AB" won_at_once).1 = won_at_once
  ∧ GuessResponse.status (finished_response (current won_at_once "tok" day)) = "won".
Proof.
  destruct (C4_finished_game day "tok" "AB" won_at_once)
    as (Hbody & _ & Hrefused & Hstore & _ & _ & Hstatus);
    [vm_compute; reflexivity |].
  split; [exact Hbody |]. split; [| split; [exact Hstore |]].
  - apply Hrefused. intros [Hlen _]. vm_compute in Hlen. discriminate Hlen.
  - destruct Hstatus as [[Hwon _]|[_ Hlost]]; [exact Hwon |].
    vm_compute in Hlost. discriminate Hlost.
Defined.

(** ** Rejection of a guess *)

(** The method as written refuses a guess of an unfinished game exactly
    when its trimmed, upper-cased form is not [WORD_LENGTH] letters, and a
    refusal leaves every record as it was seen. *)
Lemma post_body_rejects (date token guess_raw : string) (STORE : Store) :
  State.finished (current STORE token date) = false →
  ((∃ msg, (GameGuess.post_body date token guess_raw STORE).2 = Raise (ValidationError msg))
   ↔ ¬ (Str.len (normalized guess_raw) = WORD_LENGTH
        ∧ Str.isalpha (normalized guess_raw) = true))
  ∧ (∀ e, (GameGuess.post_body date token guess_raw STORE).2 = Raise e →
       ∀ t d, current (GameGuess.post_body date token guess_raw STORE).1 t d
              = current STORE t d).
Proof.
  intros Hfin. destruct (select_daily_word_Some date) as (answer & Hsel & Hanswer).
  destruct (decide (Str.len (normalized guess_raw) = WORD_LENGTH
                    ∧ Str.isalpha (normalized guess_raw) = true)) as [[Hlen Halpha]|Hbad].
  - rewrite (post_body_scored _ _ _ answer) by done. cbn [fst snd].
    split; [split; [by intros [msg [=]] | by intros []] |]. by intros e [=].
  - rewrite (post_body_invalid _ _ _ answer) by done. cbn [fst snd].
    split; [split; [done | eauto] |]. intros _ _ t d. apply get_state_current.
Qed.

(** The method as registered refuses a guess of an unfinished game exactly
    when the guess as sent is not [WORD_LENGTH] letters, and a refusal
    leaves the store as it was. *)
Lemma post_rejects (date token guess_raw : string) (STORE : Store) :
  State.finished (current STORE token date) = false →
  ((∃ msg, (GameGuess.post date token guess_raw STORE).2 = Raise (ValidationError msg))
   ↔ ¬ (Str.len guess_raw = WORD_LENGTH ∧ Str.isalpha guess_raw = true))
  ∧ (∀ e, (GameGuess.post date token guess_raw STORE).2 = Raise e →
       (GameGuess.post date token guess_raw STORE).1 = STORE).
Proof.
  intros Hfin. rewrite post_eq.
  destruct (GuessRequestSchema.guess_validate guess_raw) eqn:Hv.
  - destruct (validated_normalized _ Hv) as (_ & Hlen & Halpha).
    destruct (select_daily_word_Some date) as (answer & Hsel & Hanswer).
    rewrite (post_body_scored _ _ _ answer) by done. cbn [fst snd].
    apply guess_validate_spec in Hv.
    split; [split; [by intros [msg [=]] | done] |]. by intros e [=].
  - cbn [fst snd]. split; [| done]. split; [| eauto].
    intros _ Hok%guess_validate_spec. congruence.
Qed.

(** C6, where the code departs from it.  On a new game the guess " OCEANS "
    is refused, though trimmed and upper-cased it is the six letters
    "OCEANS": the validator of the field looks at the string as it was sent,
    8 characters long.  The method [validate_guess] of the same schema and
    the method [post] both trim before they look, and would accept it. *)
Theorem C6_padded_guess_refused :
  State.finished (current ∅ "tok" day) = false
  ∧ normalized " OCEANS " = "OCEANS"
  ∧ Str.len (normalized " OCEANS ") = WORD_LENGTH
  ∧ Str.isalpha (normalized " OCEANS ") = true
  ∧ GameGuess.post day "tok" " OCEANS " ∅ = (∅, Raise (ValidationError "Invalid value."))
  ∧ GuessRequestSchema.validate_guess " OCEANS " = None
  ∧ (GameGuess.post_body day "tok" " OCEANS " ∅).2
    = Return {| GuessResponse.feedback := [grey; grey; grey; grey; grey; grey];
                GuessResponse.attempts_used := 1;
                GuessResponse.max_attempts := 5;
                GuessResponse.status := "in_progress";
                GuessResponse.message := "Good try! Keep going." |}.
Proof. repeat split; vm_compute; reflexivity. Qed.

(** ** Normalisation of a guess *)

Lemma post_body_normalized (date token raw1 raw2 : string) (STORE : Store) :
  normalized raw1 = normalized raw2 →
  GameGuess.post_body date token raw1 STORE = GameGuess.post_body date token raw2 STORE.
Proof.
  intros Hnorm. unfold GameGuess.post_body.
  fold (normalized raw1). fold (normalized raw2). by rewrite Hnorm.
Qed.

(** * Further properties *)

(** ** [score_guess] on words of any length *)

Lemma first_pass_body_frame (answer : list ascii) (st st' : scoring) (i : nat) (ch : ascii) :
  first_pass_body answer st i ch = Some st' →
  length st'.1 = length st.1 ∧ length st'.2 = length st.2
  ∧ ∀ j, j ≠ i → st'.1 !! j = st.1 !! j.
Proof.
  unfold first_pass_body, list_set. destruct st as [res ac]. cbn [fst snd].
  destruct (answer !! i) as [a|]; [| done]. cbn [mbind option_bind].
  destruct (decide (a = ch)); [| by intros [= <-]].
  destruct (decide (i < length res)); [| done]. cbn [mbind option_bind].
  destruct (decide (i < length ac)); [| done]. cbn [mbind option_bind].
  intros [= <-]. cbn [fst snd]. rewrite !length_insert.
  split; [done |]. split; [done |]. intros j Hj. by rewrite list_lookup_insert_ne.
Qed.

Lemma second_pass_body_frame (st st' : scoring) (i : nat) (ch : ascii) :
  second_pass_body st i ch = Some st' →
  length st'.1 = length st.1 ∧ length st'.2 = length st.2
  ∧ ∀ j, j ≠ i → st'.1 !! j = st.1 !! j.
Proof.
  unfold second_pass_body, list_set. destruct st as [res ac]. cbn [fst snd].
  destruct (res !! i) as [r|]; [| done]. cbn [mbind option_bind].
  destruct (decide (r = green)); [by intros [= <-] |].
  destruct (list_in (Some ch) ac); [| by intros [= <-]].
  destruct (decide (i < length res)); [| done]. cbn [mbind option_bind].
  destruct (list_index (Some ch) ac) as [k|]; [| done]. cbn [mbind option_bind].
  destruct (decide (k < length ac)); [| done]. cbn [mbind option_bind].
  intros [= <-]. cbn [fst snd]. rewrite !length_insert.
  split; [done |]. split; [done |]. intros j Hj. by rewrite list_lookup_insert_ne.
Qed.

Lemma first_pass_body_is_Some (answer : list ascii) (st : scoring) (i : nat) (ch : ascii) :
  i < length st.1 → i < length st.2 → i < length answer →
  is_Some (first_pass_body answer st i ch).
Proof.
  intros Hres Hac Hanswer. unfold first_pass_body.
  destruct (lookup_lt_is_Some_2 answer i Hanswer) as [a ->]. cbn [mbind option_bind].
  destruct (decide (a = ch)); [| done].
  rewrite !list_set_Some by done. done.
Qed.

Lemma second_pass_body_is_Some (st : scoring) (i : nat) (ch : ascii) :
  i < length st.1 → is_Some (second_pass_body st i ch).
Proof.
  intros Hres. unfold second_pass_body.
  destruct (lookup_lt_is_Some_2 st.1 i Hres) as [r ->]. cbn [mbind option_bind].
  destruct (decide (r = green)); [done |].
  rewrite list_in_left_over. case_bool_decide as Hpos; [| done].
  destruct (list_index_consume ch st.2 Hpos) as (k & -> & Hk & _).
  rewrite list_set_Some by done. cbn [mbind option_bind].
  rewrite list_set_Some by done. done.
Qed.

(** A loop keeps what each step keeps. *)
Lemma for_enumerate_from_preserves {A St} (body : St → nat → A → option St)
    (P : nat → St → Prop) :
  (∀ i ch st st', P i st → body st i ch = Some st' → P (S i) st') →
  ∀ l k st st', for_enumerate_from body k l st = Some st' → P k st → P (k + length l) st'.
Proof.
  intros Hbody l. induction l as [|ch l IH]; intros k st st' Hrun HP; simpl in *.
  - injection Hrun as <-. by rewrite Nat.add_0_r.
  - destruct (body st k ch) as [st1|] eqn:Hstep; [| done]. simpl in Hrun.
    replace (k + S (length l)) with (S k + length l) by lia. eauto.
Qed.

(** A loop raises when the step at some position always does. *)
Lemma for_enumerate_from_fails {A St} (body : St → nat → A → option St)
    (P : St → Prop) (l : list A) (n : nat) :
  (∀ i ch st st', P st → body st i ch = Some st' → P st') →
  (∀ ch st, l !! n = Some ch → P st → body st n ch = None) →
  n < length l →
  ∀ suffix k st, k ≤ n → drop k l = suffix → P st →
    for_enumerate_from body k suffix st = None.
Proof.
  intros Hkeep Hfail Hn suffix.
  induction suffix as [|ch suffix IH]; intros k st Hk Hdrop HP.
  - apply (f_equal length) in Hdrop. rewrite length_drop in Hdrop. simpl in Hdrop. lia.
  - assert (l !! k = Some ch) as Hch.
    { rewrite <- (Nat.add_0_r k), <- lookup_drop, Hdrop. done. }
    simpl. destruct (decide (k = n)) as [->|Hne].
    + by rewrite (Hfail ch st Hch HP).
    + destruct (body st k ch) as [st1|] eqn:Hstep; [| done]. simpl.
      apply IH; [lia | | by eapply Hkeep].
      replace (S k) with (k + 1) by lia. by rewrite <- drop_drop, Hdrop.
Qed.

Lemma first_pass_untouched (answer : list ascii) (res0 : list string) (n : nat)
    (i : nat) (ch : ascii) (st st' : scoring) :
  untouched res0 n i st → first_pass_body answer st i ch = Some st' →
  untouched res0 n (S i) st'.
Proof.
  intros (Hres & Hac & Hrest) (Hres' & Hac' & Hframe)%first_pass_body_frame.
  split; [congruence |]. split; [congruence |].
  intros j Hj. rewrite Hframe by lia. apply Hrest. lia.
Qed.

Lemma second_pass_untouched (res0 : list string) (n : nat)
    (i : nat) (ch : ascii) (st st' : scoring) :
  untouched res0 n i st → second_pass_body st i ch = Some st' →
  untouched res0 n (S i) st'.
Proof.
  intros (Hres & Hac & Hrest) (Hres' & Hac' & Hframe)%second_pass_body_frame.
  split; [congruence |]. split; [congruence |].
  intros j Hj. rewrite Hframe by lia. apply Hrest. lia.
Qed.

(** X1. [score_guess] returns exactly when the guess is no longer than
    [WORD_LENGTH] and no longer than the answer; otherwise an index is out
    of range and it raises.  What it returns has [WORD_LENGTH] entries, and
    the positions past the end of a short guess are grey. *)
Theorem score_guess_bounds (guess answer : string) :
  (is_Some (score_guess guess answer)
   ↔ Str.len guess ≤ WORD_LENGTH ∧ Str.len guess ≤ Str.len answer)
  ∧ ∀ res, score_guess guess answer = Some res →
      length res = WORD_LENGTH
      ∧ ∀ i, Str.len guess ≤ i < WORD_LENGTH → res !! i = Some grey.
Proof.
  pose proof (length_chars guess) as Hgs. pose proof (length_chars answer) as Has.
  set (res0 := replicate WORD_LENGTH grey).
  assert (length res0 = WORD_LENGTH) as Hres0 by apply length_replicate.
  destruct (decide (Str.len guess ≤ WORD_LENGTH ∧ Str.len guess ≤ Str.len answer))
    as [[Hshort Hfits]|Hbad].
  - (* both loops run to their end *)
    destruct (for_enumerate_inv (first_pass_body (Str.chars answer))
                (untouched res0 (Str.len answer)) (Str.chars guess)
                (res0, Some <$> Str.chars answer)) as (st1 & Hrun1 & Hst1).
    { intros i ch st Hch (Hres & Hac & Hrest).
      apply lookup_lt_Some in Hch.
      destruct (first_pass_body_is_Some (Str.chars answer) st i ch) as [st' Hst'];
        [lia.. |].
      exists st'. split; [done |]. by eapply first_pass_untouched. }
    { unfold untouched. cbn [fst snd]. by rewrite length_fmap. }
    destruct (for_enumerate_inv second_pass_body
                (untouched st1.1 (Str.len answer)) (Str.chars guess) st1)
      as (st2 & Hrun2 & Hst2).
    { intros i ch st Hch (Hres & Hac & Hrest).
      apply lookup_lt_Some in Hch. destruct Hst1 as (Hres1 & _).
      destruct (second_pass_body_is_Some st i ch) as [st' Hst']; [lia |].
      exists st'. split; [done |]. by eapply second_pass_untouched. }
    { destruct Hst1 as (Hres1 & Hac1 & _). done. }
    assert (score_guess guess answer = Some st2.1) as Hscore.
    { unfold score_guess. fold res0. rewrite Hrun1. cbn [mbind option_bind].
      by rewrite Hrun2. }
    rewrite Hscore. split; [split; [done | eauto] |].
    intros res [= <-].
    destruct Hst1 as (Hres1 & _ & Hrest1). destruct Hst2 as (Hres2 & _ & Hrest2).
    split; [congruence |]. intros i [Hlo Hhi].
    rewrite Hrest2, Hrest1 by lia. by apply lookup_replicate_2.
  - (* one of the loops raises *)
    assert (score_guess guess answer = None) as Hscore.
    { unfold score_guess, for_enumerate. fold res0.
      destruct (decide (Str.len answer < Str.len guess)) as [Hlong|Hfits].
      - rewrite (for_enumerate_from_fails (first_pass_body (Str.chars answer))
                   (λ _, True) (Str.chars guess) (Str.len answer)); [done | done | | lia | lia | done | done].
        intros ch st _ _. unfold first_pass_body.
        by rewrite lookup_ge_None_2 by lia.
      - destruct (for_enumerate_from _ _ _ _) as [st1|] eqn:Hrun1; [| done].
        cbn [mbind option_bind].
        apply (for_enumerate_from_preserves _ (λ _ st, length st.1 = WORD_LENGTH)) in Hrun1;
          [| by intros i ch st st' Hlen (-> & _)%first_pass_body_frame | done].
        rewrite (for_enumerate_from_fails second_pass_body
                   (λ st, length st.1 = WORD_LENGTH) (Str.chars guess) WORD_LENGTH);
          [done | | | lia | lia | done | done].
        + by intros i ch st st' Hlen (-> & _)%second_pass_body_frame.
        + intros ch st _ Hlen. unfold second_pass_body.
          by rewrite lookup_ge_None_2 by lia. }
    rewrite Hscore. split; [| done]. split; [by intros [? [=]] | done].
Qed.

(** ** Grey letters *)

Lemma count_if_take_le {A} (f : A → bool) (n : nat) (l : list A) :
  count_if f (take n l) ≤ count_if f l.
Proof.
  revert n. induction l as [|x l IH]; intros [|n]; simpl; try lia.
  specialize (IH n). lia.
Qed.

Lemma count_if_lookup_pos {A} (f : A → bool) (l : list A) (i : nat) (x : A) :
  l !! i = Some x → f x = true → 0 < count_if f l.
Proof.
  revert i. induction l as [|y l IH]; intros [|i] Hi Hx; simpl in *; try done.
  - injection Hi as ->. rewrite Hx. lia.
  - specialize (IH i Hi Hx). lia.
Qed.

Lemma earlier_mono (guess answer : string) (i j : nat) (c : ascii) :
  i ≤ j → earlier guess answer i c ≤ earlier guess answer j c.
Proof.
  intros Hij. unfold earlier.
  replace (take i (pairs guess answer)) with (take i (take j (pairs guess answer)))
    by (rewrite take_take; f_equal; lia).
  apply count_if_take_le.
Qed.

(** X2. For a guess and an answer of [WORD_LENGTH] letters: a position is
    grey only if its letter occurs more often in the guess than in the
    answer; a letter that is no more frequent in the guess than in the answer
    is green or yellow at every position; a letter the answer does not hold is
    grey. *)
Theorem grey_letter_surplus (guess answer : string) (i : nat) (c : ascii) :
  Str.len guess = WORD_LENGTH → Str.len answer = WORD_LENGTH →
  Str.chars guess !! i = Some c →
  ∃ res, score_guess guess answer = Some res
    ∧ (res !! i = Some grey → occurrences c answer < occurrences c guess)
    ∧ (occurrences c guess ≤ occurrences c answer →
       res !! i = Some green ∨ res !! i = Some yellow)
    ∧ (occurrences c answer = 0 → res !! i = Some grey).
Proof.
  intros Hguess Hanswer Hc. exists (spec_score guess answer).
  split; [by apply score_guess_spec_score |].
  assert (i < WORD_LENGTH) as Hi.
  { apply lookup_lt_Some in Hc. by rewrite length_chars, Hguess in Hc. }
  destruct (pairs_lookup_lt guess answer Hguess Hanswer i Hi) as (g & a & Hg & Ha & Hp).
  assert (g = c) as -> by congruence.
  rewrite (spec_score_lookup guess answer i Hi).
  rewrite (occurrences_guess guess answer Hguess Hanswer c).
  rewrite (occurrences_answer guess answer Hguess Hanswer c).
  assert (Some (spec_colour guess answer i) = Some grey →
          greens_of guess answer WORD_LENGTH c + remaining guess answer c
          < greens_of guess answer WORD_LENGTH c + earlier guess answer WORD_LENGTH c)
    as Hgrey.
  { destruct (decide (c = a)) as [<-|Hne].
    - by rewrite (spec_colour_green guess answer i c Hp).
    - rewrite (spec_colour_not_green guess answer i c a Hp Hne).
      destruct (decide (earlier guess answer i c < remaining guess answer c)); [done |].
      intros _. pose proof (earlier_S guess answer i _ c Hp) as HS.
      unfold is_green in HS. cbn [fst snd] in HS.
      rewrite (bool_decide_eq_true_2 (c = c)), (bool_decide_eq_false_2 (c = a)) in HS by done.
      cbn [negb andb] in HS.
      pose proof (earlier_mono guess answer (S i) WORD_LENGTH c). lia. }
  split; [done |]. split.
  - intros Hle.
    destruct (spec_colour_cases guess answer i) as [->|[->|Hcol]]; [by left | by right |].
    rewrite Hcol in Hgrey. specialize (Hgrey eq_refl). lia.
  - intros Hzero. f_equal.
    destruct (decide (c = a)) as [<-|Hne].
    + assert (0 < greens_of guess answer WORD_LENGTH c); [| lia].
      unfold greens_of. rewrite take_ge by (by rewrite length_pairs).
      apply (count_if_lookup_pos _ _ i (c, c) Hp).
      unfold is_green. cbn [fst snd]. by rewrite bool_decide_eq_true_2.
    + rewrite (spec_colour_not_green guess answer i c a Hp Hne).
      rewrite decide_False by lia. done.
Qed.

Lemma grey_letter_surplus_witness :
  ∃ res, score_guess "SEEDED" "REEFUS" = Some res
    ∧ (res !! 4 = Some grey → occurrences "E" "REEFUS" < occurrences "E" "SEEDED")
    ∧ (occurrences "E" "SEEDED" ≤ occurrences "E" "REEFUS" →
       res !! 4 = Some green ∨ res !! 4 = Some yellow)
    ∧ (occurrences "E" "REEFUS" = 0 → res !! 4 = Some grey).
Proof. apply (grey_letter_surplus "SEEDED" "REEFUS" 4 "E"); reflexivity. Defined.

(** ** [get_state_for_today] *)

(** X3. [get_state_for_today] returns the record stored for the token and
    the day, or a new empty one when there is none; afterwards the store
    holds the record it returned, every other record is as before, a store
    that held the record is unchanged, and a second call changes nothing
    more. *)
Theorem get_state_for_today_spec (date token : string) (STORE : Store) :
  let r := get_state_for_today date token STORE in
  r.2 = default State.fresh (record_at STORE token date)
  ∧ record_at r.1 token date = Some r.2
  ∧ (∀ t d, t ≠ token ∨ d ≠ date → record_at r.1 t d = record_at STORE t d)
  ∧ (is_Some (record_at STORE token date) → r.1 = STORE)
  ∧ get_state_for_today date token r.1 = r.
Proof.
  cbn zeta. rewrite get_state_snd. fold (current STORE token date).
  split; [done |]. split; [| split; [| split]].
  - by rewrite get_state_record_at, decide_True.
  - intros t d Hother. rewrite get_state_record_at.
    rewrite decide_False; [done |]. intros [-> ->]. by destruct Hother.
  - intros [state Hstate]. by rewrite (get_state_existing _ _ _ _ Hstate).
  - rewrite get_state_twice. rewrite <- get_state_snd.
    by destruct (get_state_for_today date token STORE).
Qed.

(** ** The records a guess leaves alone *)

Lemma record_at_post_body_other (date token guess_raw t d : string) (STORE : Store) :
  t ≠ token ∨ d ≠ date →
  record_at (GameGuess.post_body date token guess_raw STORE).1 t d = record_at STORE t d.
Proof.
  intros Hother.
  assert (¬ (t = token ∧ d = date)) as Hne by (intros [-> ->]; by destruct Hother).
  destruct (select_daily_word_Some date) as (answer & Hsel & Hanswer).
  destruct (State.finished (current STORE token date)) eqn:Hfin.
  { rewrite (post_body_finished _ _ _ answer) by done. cbn [fst].
    by rewrite get_state_record_at, decide_False. }
  destruct (decide (Str.len (normalized guess_raw) = WORD_LENGTH
                    ∧ Str.isalpha (normalized guess_raw) = true)) as [[Hlen Halpha]|Hbad].
  - rewrite (post_body_scored _ _ _ answer) by done. cbn [fst].
    rewrite record_at_write_state, decide_False by done.
    by rewrite get_state_record_at, decide_False.
  - rewrite (post_body_invalid _ _ _ answer) by done. cbn [fst].
    by rewrite get_state_record_at, decide_False.
Qed.

(** X4. A guess of one session on one day leaves the records of every other
    token and of every other day exactly as they were, whether it is
    accepted or refused. *)
Theorem post_other_records (date token guess_raw t d : string) (STORE : Store) :
  t ≠ token ∨ d ≠ date →
  record_at (GameGuess.post date token guess_raw STORE).1 t d = record_at STORE t d
  ∧ record_at (GameGuess.post_body date token guess_raw STORE).1 t d = record_at STORE t d.
Proof.
  intros Hother. split; [| by apply record_at_post_body_other].
  rewrite post_eq. destruct (GuessRequestSchema.guess_validate guess_raw); [| done].
  by apply record_at_post_body_other.
Qed.

Lemma post_other_records_witness :
  record_at (GameGuess.post day "eve" "bright" four_misses).1 "tok" day
  = record_at four_misses "tok" day
  ∧ record_at (GameGuess.post_body day "eve" "bright" four_misses).1 "tok" day
    = record_at four_misses "tok" day.
Proof. apply (post_other_records day "eve" "bright" "tok" day four_misses). by left. Defined.

(** ** What a sequence of requests keeps *)

Lemma current_post_body (date token guess_raw t d : string) (STORE : Store) :
  current (GameGuess.post_body date token guess_raw STORE).1 t d = current STORE t d
  ∨ t = token ∧ d = date
    ∧ State.finished (current STORE token date) = false
    ∧ ∃ e, State.attempts (current (GameGuess.post_body date token guess_raw STORE).1 t d)
           = State.attempts (current STORE token date) ++ [e].
Proof.
  destruct (select_daily_word_Some date) as (answer & Hsel & Hanswer).
  destruct (State.finished (current STORE token date)) eqn:Hfin.
  { left. rewrite (post_body_finished _ _ _ answer) by done. apply get_state_current. }
  destruct (decide (Str.len (normalized guess_raw) = WORD_LENGTH
                    ∧ Str.isalpha (normalized guess_raw) = true)) as [[Hlen Halpha]|Hbad].
  - rewrite (post_body_scored _ _ _ answer) by done. cbn [fst].
    destruct (decide (t = token ∧ d = date)) as [[-> ->]|Hne].
    + right. split; [done |]. split; [done |]. split; [done |].
      rewrite current_write_state. eexists. unfold outcome_of.
      destruct (all_green _); [done |]. by destruct (bool_decide _).
    + left. unfold current at 1. rewrite record_at_write_state, decide_False by done.
      apply get_state_current.
  - left. rewrite (post_body_invalid _ _ _ answer) by done. apply get_state_current.
Qed.

Lemma current_step (STORE STORE' : Store) (t d : string) :
  step STORE STORE' →
  current STORE' t d = current STORE t d
  ∨ State.finished (current STORE t d) = false
    ∧ ∃ e, State.attempts (current STORE' t d) = State.attempts (current STORE t d) ++ [e].
Proof.
  intros [date token S|date token guess_raw S].
  - left. destruct (select_daily_word_Some date) as (answer & Hsel & _).
    rewrite (status_get_eq _ _ answer) by done. apply get_state_current.
  - rewrite post_eq. destruct (GuessRequestSchema.guess_validate guess_raw); [| by left].
    destruct (current_post_body date token guess_raw t d S)
      as [Hsame|(-> & -> & Hfin & e & He)]; [by left | right; eauto].
Qed.

(** X5. Whatever requests are served, of whatever sessions, the attempts of
    a record are only ever added to at the end: the list a record held is a
    prefix of the list it holds later. *)
Theorem attempts_only_grow (STORE STORE' : Store) (t d : string) :
  rtc step STORE STORE' →
  State.attempts (current STORE t d) `prefix_of` State.attempts (current STORE' t d).
Proof.
  induction 1 as [S|S1 S2 S3 Hstep _ IH]; [done |].
  etrans; [| exact IH].
  destruct (current_step S1 S2 t d Hstep) as [->|(_ & e & ->)]; [done |].
  by apply prefix_app_r.
Qed.

Lemma attempts_only_grow_witness :
  State.attempts (current four_misses "tok" day)
  `prefix_of`
  State.attempts (current (GameGuess.post day "tok" "marine"
                             (GameStatus.get day "eve" four_misses).1).1 "tok" day).
Proof.
  apply (attempts_only_grow four_misses).
  eapply rtc_l; [apply step_status |]. eapply rtc_l; [apply step_guess |]. apply rtc_refl.
Defined.

(** X6. A finished record is never changed again: after any sequence of
    requests it is the record it was. *)
Theorem finished_record_is_final (STORE STORE' : Store) (t d : string) :
  rtc step STORE STORE' →
  State.finished (current STORE t d) = true →
  current STORE' t d = current STORE t d.
Proof.
  induction 1 as [S|S1 S2 S3 Hstep _ IH]; intros Hfin; [done |].
  destruct (current_step S1 S2 t d Hstep) as [Hsame|(Hopen & _)]; [| congruence].
  rewrite <- Hsame. apply IH. by rewrite Hsame.
Qed.

Lemma finished_record_is_final_witness :
  current (GameGuess.post day "tok" "oceans"
             (GameGuess.post day "tok" "bright" won_at_once).1).1 "tok" day
  = current won_at_once "tok" day.
Proof.
  apply (finished_record_is_final won_at_once).
  - eapply rtc_l; [apply step_guess |]. eapply rtc_l; [apply step_guess |]. apply rtc_refl.
  - vm_compute. reflexivity.
Defined.

(** ** What the store records *)

Lemma outcome_of_attempts (answer : string) (state : State.t)
    (attempts : list Entry.t) (feedback : list string) :
  State.attempts (outcome_of answer state attempts feedback).1.1 = attempts.
Proof.
  unfold outcome_of. destruct (all_green feedback); [done |]. by destruct (bool_decide _).
Qed.

Lemma entries_ok_current (STORE : Store) (token date : string) :
  entries_ok STORE → Forall (entry_ok date) (State.attempts (current STORE token date)).
Proof.
  intros Hok. unfold current.
  destruct (record_at STORE token date) as [state|] eqn:Hrec; simpl; [by eapply Hok | done].
Qed.

Lemma entries_ok_get_state (date token : string) (STORE : Store) :
  entries_ok STORE → entries_ok (get_state_for_today date token STORE).1.
Proof.
  intros Hok t d state. rewrite get_state_record_at.
  case_decide as Hk; [| apply Hok]. destruct Hk as [-> ->].
  intros [= <-]. by apply entries_ok_current.
Qed.

Lemma entries_ok_post_body (date token guess_raw : string) (STORE : Store) :
  entries_ok STORE → entries_ok (GameGuess.post_body date token guess_raw STORE).1.
Proof.
  intros Hok.
  destruct (select_daily_word_Some date) as (answer & Hsel & Hanswer).
  destruct (State.finished (current STORE token date)) eqn:Hfin.
  { rewrite (post_body_finished _ _ _ answer) by done. by apply entries_ok_get_state. }
  destruct (decide (Str.len (normalized guess_raw) = WORD_LENGTH
                    ∧ Str.isalpha (normalized guess_raw) = true)) as [[Hlen Halpha]|Hbad].
  - rewrite (post_body_scored _ _ _ answer) by done. cbn [fst].
    intros t d state. rewrite record_at_write_state.
    case_decide as Hk; [| by apply entries_ok_get_state]. destruct Hk as [-> ->].
    intros [= <-]. rewrite outcome_of_attempts.
    apply Forall_app. split; [by apply entries_ok_current |].
    apply Forall_singleton. exists answer. cbn [Entry.guess Entry.feedback].
    split; [done |]. split; [done |]. split; [done |].
    split; [apply upper_twice | by apply score_guess_spec_score].
  - rewrite (post_body_invalid _ _ _ answer) by done. by apply entries_ok_get_state.
Qed.

Lemma reachable_entries_ok (STORE : Store) : reachable STORE → entries_ok STORE.
Proof.
  induction 1 as [|date token STORE _ IH|date token guess_raw STORE _ IH].
  - intros token date state. unfold record_at. by rewrite lookup_empty.
  - destruct (select_daily_word_Some date) as (answer & Hsel & _).
    rewrite (status_get_eq _ _ answer) by done. by apply entries_ok_get_state.
  - rewrite post_eq. destruct (GuessRequestSchema.guess_validate guess_raw); [| done].
    by apply entries_ok_post_body.
Qed.

(** A feedback is all green exactly for the answer itself. *)
Lemma all_green_score (guess answer : string) (res : list string) :
  Str.len guess = WORD_LENGTH → Str.len answer = WORD_LENGTH →
  score_guess guess answer = Some res →
  all_green res = true ↔ guess = answer.
Proof.
  intros Hguess Hanswer. rewrite (score_guess_spec_score _ _ Hguess Hanswer).
  intros [= <-]. rewrite all_green_spec. split.
  - intros Hall. apply chars_inj, list_eq. intros i.
    destruct (decide (i < WORD_LENGTH)) as [Hi|Hi].
    + destruct (pairs_lookup_lt guess answer Hguess Hanswer i Hi) as (g & a & -> & -> & Hp).
      f_equal. destruct (decide (g = a)) as [|Hne]; [done |].
      pose proof (Hall i _ (spec_score_lookup guess answer i Hi)) as Hcol.
      rewrite (spec_colour_not_green guess answer i g a Hp Hne) in Hcol.
      by destruct (decide (earlier guess answer i g < remaining guess answer g)).
    + rewrite !lookup_ge_None_2; [done | |]; rewrite length_chars; lia.
  - intros <- i x Hx.
    assert (i < WORD_LENGTH) as Hi.
    { apply lookup_lt_Some in Hx. unfold spec_score in Hx.
      by rewrite length_fmap, length_seq in Hx. }
    rewrite (spec_score_lookup guess guess i Hi) in Hx. injection Hx as <-.
    destruct (pairs_lookup_lt guess guess Hguess Hguess i Hi) as (g & a & Hg & Ha & Hp).
    assert (a = g) as -> by congruence. by apply spec_colour_green with g.
Qed.

Lemma flags_ok_fresh : flags_ok State.fresh.
Proof.
  unfold flags_ok, State.fresh, MAX_ATTEMPTS. simpl.
  split; split; try done; [by intros [|] | by intros (e & [=] & _)].
Qed.

Lemma flags_ok_outcome (answer : string) (state : State.t) (e : Entry.t) :
  record_ok state → State.finished state = false →
  flags_ok (outcome_of answer state (State.attempts state ++ [e]) (Entry.feedback e)).1.1.
Proof.
  intros [(_ & Hwon & _) Hopen] Hfin. destruct (Hopen Hfin) as [Hroom _].
  assert (State.won state = false) as Hlost.
  { destruct (State.won state); [| done]. by rewrite Hwon in Hfin. }
  unfold outcome_of, flags_ok.
  destruct (all_green (Entry.feedback e)) eqn:He; [| case_bool_decide as Hmax];
    cbn [fst snd State.attempts State.finished State.won];
    rewrite ?Hfin, ?Hlost, last_snoc; rewrite ?length_app in *; simpl in *;
    unfold MAX_ATTEMPTS in *.
  - split; split; try done; [by left | eauto].
  - split; split; try done; [intros _; right; lia | intros (e' & [= <-] & He'); congruence].
  - split; split; try done; [intros [|]; [done | lia] | intros (e' & [= <-] & He'); congruence].
Qed.

Lemma reachable_flags_ok (STORE : Store) (token date : string) (state : State.t) :
  reachable STORE → record_at STORE token date = Some state → flags_ok state.
Proof.
  intros Hreach. revert token date state.
  induction Hreach as [|date token STORE Hreach IH|date token guess_raw STORE Hreach IH];
    intros t d state.
  - unfold record_at. by rewrite lookup_empty.
  - destruct (select_daily_word_Some date) as (answer & Hsel & _).
    rewrite (status_get_eq _ _ answer) by done. cbn [fst].
    rewrite get_state_record_at. case_decide as Hk; [| apply IH].
    destruct Hk as [-> ->]. intros [= <-]. unfold current.
    destruct (record_at STORE token date) eqn:Hrec; simpl; [by eapply IH | apply flags_ok_fresh].
  - assert (flags_ok (current STORE token date)) as Hcur.
    { unfold current.
      destruct (record_at STORE token date) eqn:Hrec; simpl; [by eapply IH | apply flags_ok_fresh]. }
    assert (∀ state, record_at (get_state_for_today date token STORE).1 t d = Some state →
                     flags_ok state) as Hget.
    { intros state'. rewrite get_state_record_at. case_decide as Hk; [| apply IH].
      by intros [= <-]. }
    rewrite post_eq. destruct (GuessRequestSchema.guess_validate guess_raw); [| apply IH].
    destruct (select_daily_word_Some date) as (answer & Hsel & Hanswer).
    destruct (State.finished (current STORE token date)) eqn:Hfin.
    { rewrite (post_body_finished _ _ _ answer) by done. apply Hget. }
    destruct (decide (Str.len (normalized guess_raw) = WORD_LENGTH
                      ∧ Str.isalpha (normalized guess_raw) = true)) as [[Hlen Halpha]|Hbad].
    + rewrite (post_body_scored _ _ _ answer) by done. cbn [fst].
      rewrite record_at_write_state. case_decide as Hk; [| apply Hget].
      intros [= <-].
      apply (flags_ok_outcome answer (current STORE token date)
               {| Entry.guess := normalized guess_raw;
                  Entry.feedback := spec_score (normalized guess_raw) answer |});
        [| done].
      apply record_ok_current. by apply reachable_store_ok.
    + rewrite (post_body_invalid _ _ _ answer) by done. apply Hget.
Qed.

(** ** The outcomes of [GameGuess.post] *)

(** X10. On a game that is not finished, an accepted guess is answered
    "won" exactly when, trimmed and upper-cased, it is the answer of the
    day, that is exactly when its feedback is all green. *)
Theorem won_iff_answer (date token guess_raw : string) (STORE : Store)
    (resp : GuessResponse.t) :
  State.finished (current STORE token date) = false →
  (GameGuess.post date token guess_raw STORE).2 = Return resp →
  (GuessResponse.status resp = "won"
   ↔ select_daily_word date = Some (normalized guess_raw))
  ∧ (GuessResponse.status resp = "won"
     ↔ all_green (GuessResponse.feedback resp) = true).
Proof.
  intros Hfin Hresp.
  destruct (select_daily_word_Some date) as (answer & Hsel & Hanswer).
  rewrite post_eq in Hresp.
  destruct (GuessRequestSchema.guess_validate guess_raw) eqn:Hv; [| done].
  destruct (validated_normalized _ Hv) as (_ & Hlen & Halpha).
  rewrite (post_body_scored _ _ _ answer) in Hresp by done. cbn [fst snd] in Hresp.
  injection Hresp as <-. cbn [GuessResponse.feedback GuessResponse.status].
  pose proof (all_green_score _ _ _ Hlen Hanswer
                (score_guess_spec_score _ _ Hlen Hanswer)) as Hgreen.
  assert ((outcome_of answer (current STORE token date)
             (State.attempts (current STORE token date)
                ++ [ {| Entry.guess := normalized guess_raw;
                        Entry.feedback := spec_score (normalized guess_raw) answer |} ])
             (spec_score (normalized guess_raw) answer)).1.2 = "won"
          ↔ all_green (spec_score (normalized guess_raw) answer) = true) as Hstatus.
  { unfold outcome_of. destruct (all_green _); [done |]. by destruct (bool_decide _). }
  split; [| done]. rewrite Hstatus, Hgreen, Hsel.
  split; [by intros -> | by intros [= ->]].
Qed.

Lemma won_iff_answer_witness :
  ("lost" = "won" ↔ select_daily_word day = Some (normalized "marine"))
  ∧ ("lost" = "won" ↔ all_green [grey; grey; yellow; yellow; grey; grey] = true).
Proof.
  apply (won_iff_answer day "tok" "marine" four_misses
           {| GuessResponse.feedback := [grey; grey; yellow; yellow; grey; grey];
              GuessResponse.attempts_used := 5;
              GuessResponse.max_attempts := MAX_ATTEMPTS;
              GuessResponse.status := "lost";
              GuessResponse.message := "No attempts left. The word was BRIGHT." |}).
  - vm_compute. reflexivity.
  - vm_compute. reflexivity.
Defined.

(** ** The status after a guess *)

(** X11. After a guess was answered, on a store the endpoints can produce,
    [GameStatus.get] for the same session and day reports the status and the
    number of attempts of that answer and leaves the store as the guess
    left it; if the game was not finished before, the last feedback and the
    last guess it lists are those of the guess. *)
Theorem status_after_guess (date token guess_raw : string) (STORE : Store)
    (resp : GuessResponse.t) :
  reachable STORE →
  (GameGuess.post date token guess_raw STORE).2 = Return resp →
  ∃ view,
    GameStatus.get date token (GameGuess.post date token guess_raw STORE).1
    = ((GameGuess.post date token guess_raw STORE).1, Return view)
    ∧ StatusResponse.status view = GuessResponse.status resp
    ∧ StatusResponse.attempts_used view = GuessResponse.attempts_used resp
    ∧ StatusResponse.max_attempts view = GuessResponse.max_attempts resp
    ∧ (State.finished (current STORE token date) = false →
       last (StatusResponse.attempts view) = Some (GuessResponse.feedback resp)
       ∧ last (StatusResponse.guesses view) = Some (normalized guess_raw)).
Proof.
  intros Hreach Hresp.
  destruct (select_daily_word_Some date) as (answer & Hsel & Hanswer).
  rewrite (status_get_eq _ _ answer) by done.
  rewrite post_eq in *.
  destruct (GuessRequestSchema.guess_validate guess_raw) eqn:Hv; [| done].
  destruct (validated_normalized _ Hv) as (_ & Hlen & Halpha).
  destruct (record_ok_current STORE token date (reachable_store_ok _ Hreach))
    as [(_ & Hwon & _) _].
  destruct (State.finished (current STORE token date)) eqn:Hfin.
  - rewrite (post_body_finished _ _ _ answer) in * by done.
    rewrite !(finished_is_stored _ _ _ Hfin) in *. cbn [fst snd] in *.
    injection Hresp as <-. eexists. rewrite !(finished_is_stored _ _ _ Hfin).
    split; [done |]. unfold status_payload, finished_response. simpl.
    rewrite Hfin. split; [| done]. by destruct (State.won (current STORE token date)).
  - assert (State.won (current STORE token date) = false) as Hlost.
    { destruct (State.won (current STORE token date)); [| done]. by specialize (Hwon eq_refl). }
    rewrite (post_body_scored _ _ _ answer) in * by done. cbn [fst snd] in *.
    injection Hresp as <-. eexists.
    rewrite (get_state_existing _ _ _ _
               (eq_trans (record_at_write_state _ _ _ _ _ _) (decide_True _ _ (conj eq_refl eq_refl)))).
    rewrite current_write_state. split; [done |].
    unfold status_payload, outcome_of. rewrite Hfin, Hlost.
    destruct (all_green _); [| destruct (bool_decide _)];
      cbn [fst snd State.attempts State.finished State.won
           StatusResponse.status StatusResponse.attempts_used StatusResponse.max_attempts
           StatusResponse.attempts StatusResponse.guesses
           GuessResponse.status GuessResponse.attempts_used GuessResponse.max_attempts
           GuessResponse.feedback andb negb];
      rewrite !fmap_app; csimpl; rewrite !last_snoc; done.
Qed.

Lemma status_after_guess_witness :
  ∃ view,
    GameStatus.get day "tok" (GameGuess.post day "tok" "marine" four_misses).1
    = ((GameGuess.post day "tok" "marine" four_misses).1, Return view)
    ∧ StatusResponse.status view = "lost"
    ∧ StatusResponse.attempts_used view = 5
    ∧ StatusResponse.max_attempts view = MAX_ATTEMPTS
    ∧ (State.finished (current four_misses "tok" day) = false →
       last (StatusResponse.attempts view) = Some [grey; grey; yellow; yellow; grey; grey]
       ∧ last (StatusResponse.guesses view) = Some (normalized "marine")).
Proof.
  apply (status_after_guess day "tok" "marine" four_misses
           {| GuessResponse.feedback := [grey; grey; yellow; yellow; grey; grey];
              GuessResponse.attempts_used := 5;
              GuessResponse.max_attempts := MAX_ATTEMPTS;
              GuessResponse.status := "lost";
              GuessResponse.message := "No attempts left. The word was BRIGHT." |}).
  - apply reachable_submit_all, reachable_empty.
  - vm_compute. reflexivity.
Defined.

(** ** [ensure_token] *)

Lemma len_hex (bs : list Z) : Str.len (Sha256.hex bs) = 2 * length bs.
Proof.
  unfold Str.len. induction bs as [|b bs IH]; simpl; [done |]. rewrite IH. lia.
Qed.

Lemma len_hexdigest (msg : list Z) : Str.len (Sha256.hexdigest msg) = 64.
Proof. unfold Sha256.hexdigest. by rewrite len_hex, length_digest. Qed.

(** X12. The token [ensure_token] returns is never empty: it is the cookie
    when the request carries a non-empty one, and otherwise, for a missing or
    an empty cookie, a new token of 64 characters.  A token it returned,
    sent back as the cookie, is returned again whatever the random number and
    the time. *)
Theorem ensure_token_stable (cookie : option string) (rnd now : string) :
  let token := ensure_token cookie rnd now in
  token ≠ ""
  ∧ (cookie = Some token
     ∨ (cookie = None ∨ cookie = Some "") ∧ Str.len token = 64)
  ∧ ∀ rnd' now', ensure_token (Some token) rnd' now' = token.
Proof.
  cbn zeta.
  assert (∀ msg, Sha256.hexdigest msg ≠ "") as Hfresh.
  { intros msg Hempty. pose proof (len_hexdigest msg) as Hlen.
    by rewrite Hempty in Hlen. }
  assert (ensure_token cookie rnd now ≠ "") as Hne.
  { unfold ensure_token. destruct cookie as [token|]; [| apply Hfresh].
    destruct (decide (token = "")); [apply Hfresh | done]. }
  split; [done |]. split.
  - unfold ensure_token. destruct cookie as [token|].
    + destruct (decide (token = "")) as [->|]; [| by left].
      right. split; [by right | apply len_hexdigest].
    + right. split; [by left | apply len_hexdigest].
  - intros rnd' now'. unfold ensure_token at 1. by rewrite decide_False.
Qed.

(** ** The request schema *)

(** X14. The schema accepts a body exactly when the guess, as it was sent,
    is [WORD_LENGTH] letters, and hands it on unchanged; any other guess is
    refused with the error of the field validator.  The method
    [validate_guess] accepts exactly the guesses that are [WORD_LENGTH]
    letters once trimmed, so it accepts whatever the field validator
    accepts and its own error is never the one reported. *)
Theorem schema_accepts_untrimmed (guess : string) :
  (GuessRequestSchema.load guess = Return guess
   ↔ Str.len guess = WORD_LENGTH ∧ Str.isalpha guess = true)
  ∧ (GuessRequestSchema.load guess = Return guess
     ∨ GuessRequestSchema.load guess = Raise (ValidationError "Invalid value."))
  ∧ (GuessRequestSchema.validate_guess guess = None
     ↔ Str.len (Str.strip guess) = WORD_LENGTH ∧ Str.isalpha (Str.strip guess) = true)
  ∧ (GuessRequestSchema.guess_validate guess = true →
     GuessRequestSchema.validate_guess guess = None).
Proof.
  assert (GuessRequestSchema.validate_guess guess = None
          ↔ Str.len (Str.strip guess) = WORD_LENGTH
            ∧ Str.isalpha (Str.strip guess) = true) as Hmethod.
  { unfold GuessRequestSchema.validate_guess.
    destruct (Str.isalpha (Str.strip guess)); case_bool_decide; simpl; split;
      try done; by intros []. }
  rewrite load_eq, <- guess_validate_spec.
  split; [| split; [| split; [done |]]].
  - by destruct (GuessRequestSchema.guess_validate guess).
  - destruct (GuessRequestSchema.guess_validate guess); [by left | by right].
  - intros [Hlen Halpha]%guess_validate_spec. apply Hmethod.
    by rewrite (strip_alpha guess Halpha).
Qed.

(** ** The payload of [GameStatus.get] *)

Lemma flags_ok_current (STORE : Store) (token date : string) :
  reachable STORE → flags_ok (current STORE token date).
Proof.
  intros Hreach. unfold current.
  destruct (record_at STORE token date) as [state|] eqn:Hrec; simpl.
  - by apply (reachable_flags_ok STORE token date).
  - apply flags_ok_fresh.
Qed.

Lemma entry_ok_feedback (date : string) (e : Entry.t) :
  entry_ok date e → length (Entry.feedback e) = WORD_LENGTH.
Proof.
  intros (answer & Hsel & Hlen & _ & _ & Hscore).
  destruct (select_daily_word_Some date) as (answer' & Hsel' & Hanswer).
  assert (answer' = answer) as -> by congruence.
  rewrite (score_guess_spec_score _ _ Hlen Hanswer) in Hscore. injection Hscore as <-.
  unfold spec_score. by rewrite length_fmap, length_seq.
Qed.

(** X13. On a store the endpoints can produce, the payload of
    [GameStatus.get] is coherent: it lists as many guesses and feedbacks as
    it counts attempts, at most [MAX_ATTEMPTS], every feedback has
    [WORD_LENGTH] colours, and the status is "in_progress" with attempts to
    spare, or "won" with a last feedback all green, or "lost" with all the
    attempts used and a message that spells the answer of the day. *)
Theorem status_payload_coherent (date token : string) (STORE : Store)
    (view : StatusResponse.t) :
  reachable STORE →
  (GameStatus.get date token STORE).2 = Return view →
  StatusResponse.date view = date
  ∧ length (StatusResponse.guesses view) = StatusResponse.attempts_used view
  ∧ length (StatusResponse.attempts view) = StatusResponse.attempts_used view
  ∧ StatusResponse.attempts_used view ≤ StatusResponse.max_attempts view
  ∧ StatusResponse.max_attempts view = MAX_ATTEMPTS
  ∧ Forall (λ feedback, length feedback = WORD_LENGTH) (StatusResponse.attempts view)
  ∧ (StatusResponse.status view = "in_progress"
     ∧ StatusResponse.attempts_used view < MAX_ATTEMPTS
     ∧ StatusResponse.message view = "Make your guess!"
     ∨ StatusResponse.status view = "won"
       ∧ (∃ feedback, last (StatusResponse.attempts view) = Some feedback
                      ∧ all_green feedback = true)
       ∧ StatusResponse.message view = "You won! 🎉"
     ∨ StatusResponse.status view = "lost"
       ∧ StatusResponse.attempts_used view = MAX_ATTEMPTS
       ∧ ∃ answer, select_daily_word date = Some answer
           ∧ StatusResponse.message view
             = "Out of attempts. The word was " +:+ answer +:+ ".").
Proof.
  intros Hreach Hview.
  destruct (select_daily_word_Some date) as (answer & Hsel & Hanswer).
  rewrite (status_get_eq _ _ answer) in Hview by done. cbn [snd] in Hview.
  injection Hview as <-.
  destruct (record_ok_current STORE token date (reachable_store_ok _ Hreach))
    as [(Hmax & _ & _) Hopen].
  destruct (flags_ok_current STORE token date Hreach) as [Hfin Hwon].
  pose proof (entries_ok_current STORE token date (reachable_entries_ok _ Hreach)) as Hent.
  unfold status_payload.
  cbn [StatusResponse.date StatusResponse.guesses StatusResponse.attempts
       StatusResponse.attempts_used StatusResponse.max_attempts
       StatusResponse.status StatusResponse.message].
  rewrite !length_fmap.
  split; [done |]. split; [done |]. split; [done |]. split; [done |]. split; [done |].
  split.
  { apply Forall_fmap. eapply Forall_impl; [exact Hent |].
    intros e He. by apply (entry_ok_feedback date). }
  destruct (State.won (current STORE token date)) eqn:Ewon.
  - right. left. split; [done |]. split; [| done].
    destruct (proj1 Hwon eq_refl) as (e & Hlast & Hgreen).
    exists (Entry.feedback e). by rewrite fmap_last, Hlast.
  - destruct (State.finished (current STORE token date)) eqn:Efin; simpl.
    + right. right. split; [done |].
      destruct (proj1 Hfin eq_refl) as [|Hlen]; [done |]. split; [done |]. eauto.
    + left. split; [done |]. split; [| done]. by destruct (Hopen eq_refl).
Qed.

Lemma status_payload_coherent_witness :
  let view := status_payload day "BRIGHT" (current four_misses "tok" day) in
  StatusResponse.date view = day
  ∧ length (StatusResponse.guesses view) = StatusResponse.attempts_used view
  ∧ length (StatusResponse.attempts view) = StatusResponse.attempts_used view
  ∧ StatusResponse.attempts_used view ≤ StatusResponse.max_attempts view
  ∧ StatusResponse.max_attempts view = MAX_ATTEMPTS
  ∧ Forall (λ feedback, length feedback = WORD_LENGTH) (StatusResponse.attempts view)
  ∧ (StatusResponse.status view = "in_progress"
     ∧ StatusResponse.attempts_used view < MAX_ATTEMPTS
     ∧ StatusResponse.message view = "Make your guess!"
     ∨ StatusResponse.status view = "won"
       ∧ (∃ feedback, last (StatusResponse.attempts view) = Some feedback
                      ∧ all_green feedback = true)
       ∧ StatusResponse.message view = "You won! 🎉"
     ∨ StatusResponse.status view = "lost"
       ∧ StatusResponse.attempts_used view = MAX_ATTEMPTS
       ∧ ∃ answer, select_daily_word day = Some answer
           ∧ StatusResponse.message view
             = "Out of attempts. The word was " +:+ answer +:+ ".").
Proof.
  apply (status_payload_coherent day "tok" four_misses).
  - apply reachable_submit_all, reachable_empty.
  - vm_compute. reflexivity.
Defined.

(** ** [today_key] *)

Lemma len_append (s t : string) : Str.len (s +:+ t) = Str.len s + Str.len t.
Proof. unfold Str.len. induction s as [|c s IH]; simpl; [done | by rewrite IH]. Qed.

Lemma len_decimal (width n : nat) : Str.len (decimal width n) = width.
Proof.
  revert n. induction width as [|width IH]; intros n; cbn [decimal]; [done |].
  rewrite len_append, IH. unfold Str.len. cbn [String.length]. lia.
Qed.

Lemma append_inj_len (s1 s2 t1 t2 : string) :
  Str.len s1 = Str.len s2 → s1 +:+ t1 = s2 +:+ t2 → s1 = s2 ∧ t1 = t2.
Proof.
  unfold Str.len. revert s2.
  induction s1 as [|c s1 IH]; intros [|c2 s2] Hlen Heq; simpl in *; try done.
  injection Heq as -> Heq. destruct (IH s2) as [-> ->]; [lia | done | done].
Qed.

Lemma decimal_inj (width n m : nat) :
  n < 10 ^ width → m < 10 ^ width → decimal width n = decimal width m → n = m.
Proof.
  revert n m. induction width as [|width IH]; intros n m Hn Hm Heq.
  - simpl in *. lia.
  - rewrite Nat.pow_succ_r' in Hn, Hm. cbn [decimal] in Heq.
    apply append_inj_len in Heq as [Hhigh Hlow]; [| by rewrite !len_decimal].
    assert (n mod 10 < 10) as Hn10 by (apply Nat.mod_upper_bound; lia).
    assert (m mod 10 < 10) as Hm10 by (apply Nat.mod_upper_bound; lia).
    assert (ascii_of_nat (48 + n mod 10) = ascii_of_nat (48 + m mod 10)) as Hc
      by congruence.
    apply (f_equal nat_of_ascii) in Hc.
    rewrite !nat_ascii_embedding in Hc by lia. clear Hlow.
    assert (n / 10 = m / 10) as Hdiv.
    { apply IH; [| | done]; apply Nat.Div0.div_lt_upper_bound; lia. }
    pose proof (Nat.div_mod_eq n 10). pose proof (Nat.div_mod_eq m 10). lia.
Qed.

(** X15. For dates with a year of four digits, [today_key] is a string of 8
    characters, and two dates with the same key are the same date: the
    records of different days are kept under different keys. *)
Theorem today_key_injective (y1 m1 d1 y2 m2 d2 : nat) :
  1000 ≤ y1 < 10 ^ 4 → 1000 ≤ y2 < 10 ^ 4 →
  1 ≤ m1 ≤ 12 → 1 ≤ m2 ≤ 12 → 1 ≤ d1 ≤ 31 → 1 ≤ d2 ≤ 31 →
  Str.len (today_key y1 m1 d1) = 8
  ∧ (today_key y1 m1 d1 = today_key y2 m2 d2 → y1 = y2 ∧ m1 = m2 ∧ d1 = d2).
Proof.
  intros [_ Hy1] [_ Hy2] [_ Hm1] [_ Hm2] [_ Hd1] [_ Hd2].
  assert (12 < 10 ^ 2 ∧ 31 < 10 ^ 2) as [H12 H31]
    by (split; apply Nat.ltb_lt; reflexivity).
  unfold today_key. split.
  - by rewrite !len_append, !len_decimal.
  - intros Heq.
    apply append_inj_len in Heq as [Hy Heq]; [| by rewrite !len_decimal].
    apply append_inj_len in Heq as [Hm Hd]; [| by rewrite !len_decimal].
    split; [by apply (decimal_inj 4) |].
    split; apply (decimal_inj 2); try done; lia.
Qed.

Lemma today_key_injective_witness :
  Str.len (today_key 2024 1 1) = 8
  ∧ (today_key 2024 1 1 = today_key 2024 1 1 → 2024 = 2024 ∧ 1 = 1 ∧ 1 = 1).
Proof.
  apply (today_key_injective 2024 1 1 2024 1 1); try lia;
    (split; [lia | apply Nat.ltb_lt; reflexivity]).
Defined.

Example today_key_example : today_key 2024 1 1 = day.
Proof. reflexivity. Qed.

(** ** A game can be won *)

Lemma select_daily_word_valid (date answer : string) :
  select_daily_word date = Some answer →
  Str.len answer = WORD_LENGTH ∧ Str.isalpha answer = true ∧ Str.upper answer = answer.
Proof.
  rewrite select_daily_word_index. intros Hsel.
  apply fmap_Some in Hsel as (w & Hw & ->).
  assert (w ∈ WORD_LIST) as Hin by (apply list_elem_of_lookup; eauto).
  destruct (WORD_LIST_words w Hin) as (Hup & Hlen & Halpha). by rewrite !Hup.
Qed.

(** X16. A game that is not finished can be won at once: the answer of the
    day is itself a guess that the schema and the method accept, and it is
    answered "won" with an all-green feedback; the record is then won and
    finished. *)
Theorem answer_wins (date token : string) (STORE : Store) :
  State.finished (current STORE token date) = false →
  ∃ answer resp,
    select_daily_word date = Some answer
    ∧ (GameGuess.post date token answer STORE).2 = Return resp
    ∧ GuessResponse.status resp = "won"
    ∧ all_green (GuessResponse.feedback resp) = true
    ∧ State.won (current (GameGuess.post date token answer STORE).1 token date) = true
    ∧ State.finished (current (GameGuess.post date token answer STORE).1 token date) = true.
Proof.
  intros Hfin.
  destruct (select_daily_word_Some date) as (answer & Hsel & Hanswer).
  destruct (select_daily_word_valid date answer Hsel) as (_ & Halpha & Hupper).
  assert (GuessRequestSchema.guess_validate answer = true) as Hv
    by by apply guess_validate_spec.
  destruct (validated_normalized _ Hv) as (Hnorm & Hlen & Halpha').
  rewrite Hupper in Hnorm.
  exists answer. eexists. split; [done |].
  rewrite post_eq, Hv, (post_body_scored _ _ _ answer) by done. cbn [fst snd].
  split; [done |]. rewrite current_write_state.
  cbn [GuessResponse.status GuessResponse.feedback].
  assert (all_green (spec_score (normalized answer) answer) = true) as Hgreen.
  { apply (all_green_score (normalized answer) answer); [done | done | | done].
    by apply score_guess_spec_score. }
  unfold outcome_of. by rewrite Hgreen.
Qed.

Lemma answer_wins_witness :
  ∃ answer resp,
    select_daily_word day = Some answer
    ∧ (GameGuess.post day "tok" answer four_misses).2 = Return resp
    ∧ GuessResponse.status resp = "won"
    ∧ all_green (GuessResponse.feedback resp) = true
    ∧ State.won (current (GameGuess.post day "tok" answer four_misses).1 "tok" day) = true
    ∧ State.finished (current (GameGuess.post day "tok" answer four_misses).1 "tok" day)
      = true.
Proof. apply (answer_wins day "tok" four_misses). vm_compute. reflexivity. Defined.

(** ** A new session *)

(** X18. For a token and a day the store knows nothing of,
    [GameStatus.get] reports a game in progress with no attempt, and leaves
    in the store the empty record of that token and day. *)
Theorem status_of_new_session (date token : string) (STORE : Store) :
  record_at STORE token date = None →
  (GameStatus.get date token STORE).2
  = Return {| StatusResponse.date := date;
              StatusResponse.attempts := [];
              StatusResponse.guesses := [];
              StatusResponse.attempts_used := 0;
              StatusResponse.max_attempts := MAX_ATTEMPTS;
              StatusResponse.status := "in_progress";
              StatusResponse.message := "Make your guess!" |}
  ∧ record_at (GameStatus.get date token STORE).1 token date = Some State.fresh.
Proof.
  intros Hnone. destruct (select_daily_word_Some date) as (answer & Hsel & _).
  rewrite (status_get_eq _ _ answer) by done. cbn [fst snd].
  rewrite get_state_record_at, decide_True by done.
  unfold current. by rewrite Hnone.
Qed.

Lemma status_of_new_session_witness :
  (GameStatus.get day "eve" four_misses).2
  = Return {| StatusResponse.date := day;
              StatusResponse.attempts := [];
              StatusResponse.guesses := [];
              StatusResponse.attempts_used := 0;
              StatusResponse.max_attempts := MAX_ATTEMPTS;
              StatusResponse.status := "in_progress";
              StatusResponse.message := "Make your guess!" |}
  ∧ record_at (GameStatus.get day "eve" four_misses).1 "eve" day = Some State.fresh.
Proof. apply (status_of_new_session day "eve" four_misses). vm_compute. reflexivity. Defined.

(** * Properties outside ASCII and across midnight *)

(** ** The code points of an ASCII string *)

Lemma ascii_char_agrees (c : ascii) :
  (Str.code c <? 128) = true →
  Unicode.isspace_cp (N.of_nat (Str.code c)) = Str.char_isspace c
  ∧ Unicode.isalpha_cp (N.of_nat (Str.code c)) = Str.char_isalpha c
  ∧ Unicode.upper_cp (N.of_nat (Str.code c)) = [N.of_nat (Str.code (Str.char_upper c))]
  ∧ (Str.code (Str.char_upper c) <? 128) = true.
Proof. destruct c as [[|] [|] [|] [|] [|] [|] [|] [|]]; by vm_compute. Qed.

Lemma str_isascii_String (c : ascii) (s : string) :
  str_isascii (String c s) = (Str.code c <? 128) && str_isascii s.
Proof. done. Qed.

Lemma of_string_String (c : ascii) (s : string) :
  Unicode.of_string (String c s) = N.of_nat (Str.code c) :: Unicode.of_string s.
Proof. done. Qed.

Lemma of_string_nil (s : string) : Unicode.of_string s = [] → s = "".
Proof. by destruct s. Qed.

Lemma len_of_string (s : string) : Unicode.len (Unicode.of_string s) = Str.len s.
Proof.
  unfold Unicode.len, Unicode.of_string. by rewrite length_map, length_chars.
Qed.

Lemma str_isascii_upper (s : string) :
  str_isascii s = true → str_isascii (Str.upper s) = true.
Proof.
  induction s as [|c s IH]; [done |]. cbn [Str.upper].
  rewrite !str_isascii_String, !andb_true_iff. intros [Hc Hs].
  destruct (ascii_char_agrees c Hc) as (_ & _ & _ & Hu). auto.
Qed.

Lemma upper_of_string (s : string) :
  str_isascii s = true →
  Unicode.upper (Unicode.of_string s) = Unicode.of_string (Str.upper s).
Proof.
  induction s as [|c s IH]; [done |]. cbn [Str.upper].
  rewrite str_isascii_String, andb_true_iff. intros [Hc Hs].
  rewrite !of_string_String. unfold Unicode.upper in *. cbn [flat_map].
  destruct (ascii_char_agrees c Hc) as (_ & _ & -> & _). by rewrite IH.
Qed.

Lemma isalpha_of_string (s : string) :
  str_isascii s = true →
  Unicode.isalpha (Unicode.of_string s) = Str.isalpha s.
Proof.
  assert (∀ t, str_isascii t = true →
               forallb Unicode.isalpha_cp (Unicode.of_string t) = Str.all_alpha t) as Hall.
  { induction t as [|c t IH]; [done |].
    rewrite str_isascii_String, andb_true_iff. intros [Hc Ht].
    rewrite of_string_String. cbn [forallb Str.all_alpha].
    destruct (ascii_char_agrees c Hc) as (_ & -> & _). by rewrite IH. }
  intros Hs. destruct s as [|c s]; [done |]. apply (Hall (String c s) Hs).
Qed.

Lemma str_isascii_lstrip (s : string) :
  str_isascii s = true → str_isascii (Str.lstrip s) = true.
Proof.
  induction s as [|c s IH]; [done |]. intros Hs. cbn [Str.lstrip].
  destruct (Str.char_isspace c); [| done].
  rewrite str_isascii_String, andb_true_iff in Hs. apply IH, Hs.
Qed.

Lemma str_isascii_rstrip (s : string) :
  str_isascii s = true → str_isascii (Str.rstrip s) = true.
Proof.
  induction s as [|c s IH]; [done |].
  rewrite str_isascii_String, andb_true_iff. intros [Hc Hs]. cbn [Str.rstrip].
  specialize (IH Hs). destruct (Str.rstrip s) as [|c' t].
  - destruct (Str.char_isspace c); [done |]. by rewrite str_isascii_String, Hc.
  - by rewrite str_isascii_String, Hc, IH.
Qed.

Lemma str_isascii_strip (s : string) :
  str_isascii s = true → str_isascii (Str.strip s) = true.
Proof. intros Hs. by apply str_isascii_rstrip, str_isascii_lstrip. Qed.

Lemma lstrip_of_string (s : string) :
  str_isascii s = true →
  Unicode.lstrip (Unicode.of_string s) = Unicode.of_string (Str.lstrip s).
Proof.
  induction s as [|c s IH]; [done |].
  rewrite str_isascii_String, andb_true_iff. intros [Hc Hs].
  rewrite of_string_String. cbn [Unicode.lstrip Str.lstrip].
  destruct (ascii_char_agrees c Hc) as (-> & _).
  destruct (Str.char_isspace c); [by apply IH | done].
Qed.

Lemma rstrip_of_string (s : string) :
  str_isascii s = true →
  Unicode.rstrip (Unicode.of_string s) = Unicode.of_string (Str.rstrip s).
Proof.
  induction s as [|c s IH]; [done |].
  rewrite str_isascii_String, andb_true_iff. intros [Hc Hs].
  rewrite of_string_String. cbn [Unicode.rstrip Str.rstrip].
  rewrite (IH Hs). destruct (ascii_char_agrees c Hc) as (-> & _).
  destruct (Str.rstrip s) as [|c' t]; [| done].
  by destruct (Str.char_isspace c).
Qed.

Lemma strip_of_string (s : string) :
  str_isascii s = true →
  Unicode.strip (Unicode.of_string s) = Unicode.of_string (Str.strip s).
Proof.
  intros Hs. unfold Unicode.strip, Str.strip.
  rewrite lstrip_of_string by done. by rewrite rstrip_of_string by by apply str_isascii_lstrip.
Qed.

(** On an ASCII guess the three checks are those of the handlers on
    [string]. *)
Lemma checks_of_string (s : string) :
  str_isascii s = true →
  Unicode.guess_validate (Unicode.of_string s) = GuessRequestSchema.guess_validate s
  ∧ (Unicode.validate_guess (Unicode.of_string s) = true
     ↔ GuessRequestSchema.validate_guess s = None)
  ∧ (Unicode.method_check (Unicode.of_string s) = true
     ↔ Str.len (normalized s) = WORD_LENGTH ∧ Str.isalpha (normalized s) = true).
Proof.
  intros Hs. pose proof (str_isascii_strip s Hs) as Hstrip.
  pose proof (str_isascii_upper _ Hstrip) as Hupper.
  unfold Unicode.guess_validate, Unicode.validate_guess, Unicode.method_check,
    GuessRequestSchema.guess_validate, GuessRequestSchema.validate_guess, normalized.
  rewrite (strip_of_string s Hs), (upper_of_string _ Hstrip).
  rewrite !len_of_string, !isalpha_of_string by done.
  split; [done |]. split.
  - destruct (bool_decide (Str.len (Str.strip s) = WORD_LENGTH)), (Str.isalpha (Str.strip s));
      by cbn.
  - by rewrite andb_true_iff, bool_decide_eq_true.
Qed.

(** ** Letters outside ASCII *)

(** The ligature U+FB01 followed by "abcd": five letters, refused by the
    validator of the field, though upper-cased they are the six letters
    "FIABCD", which every check accepts. *)
Example ligature_refused :
  let raw := [0xFB01; 97; 98; 99; 100]%N in
  Unicode.covered raw = true
  ∧ Unicode.isalpha raw = true
  ∧ Unicode.len raw = 5
  ∧ Unicode.upper raw = Unicode.of_string "FIABCD"
  ∧ Unicode.accepted (Unicode.upper raw) = true
  ∧ Unicode.guess_validate raw = false
  ∧ Unicode.accepted raw = false.
Proof. repeat split. Qed.

(** The sharp s U+00DF followed by "abcde": six letters, which the schema
    lets through; upper-cased they are the seven letters "SSABCDE", on which
    the check of the method raises. *)
Example sharp_s_raises :
  let raw := [0xDF; 97; 98; 99; 100; 101]%N in
  Unicode.covered raw = true
  ∧ Unicode.guess_validate raw = true
  ∧ Unicode.validate_guess raw = true
  ∧ Unicode.upper (Unicode.strip raw) = Unicode.of_string "SSABCDE"
  ∧ Unicode.method_check raw = false.
Proof. repeat split. Qed.

(** C10, as stated, fails: a guess of lower-case letters can be refused
    though its upper-cased form is accepted. *)
Lemma C10_counterexample :
  ¬ (∀ raw : list N,
       Unicode.covered raw = true → Unicode.isalpha raw = true →
       Unicode.accepted (Unicode.upper raw) = true → Unicode.accepted raw = true).
Proof.
  intros Hclaim.
  destruct ligature_refused as (Hcov & Halpha & _ & _ & Hupper & _ & Hraw).
  pose proof (Hclaim _ Hcov Halpha Hupper) as Hacc.
  rewrite Hraw in Hacc. discriminate Hacc.
Qed.

(** ** Normalisation of an ASCII guess *)

Lemma char_upper_isspace (c : ascii) :
  Str.char_isspace (Str.char_upper c) = Str.char_isspace c.
Proof. destruct c as [[|] [|] [|] [|] [|] [|] [|] [|]]; by vm_compute. Qed.

Lemma lstrip_upper (s : string) : Str.lstrip (Str.upper s) = Str.upper (Str.lstrip s).
Proof.
  induction s as [|c s IH]; [done |]. cbn [Str.upper Str.lstrip].
  rewrite char_upper_isspace. by destruct (Str.char_isspace c).
Qed.

Lemma rstrip_upper (s : string) : Str.rstrip (Str.upper s) = Str.upper (Str.rstrip s).
Proof.
  induction s as [|c s IH]; [done |]. cbn [Str.upper Str.rstrip].
  rewrite IH, char_upper_isspace. destruct (Str.rstrip s) as [|c' t]; [| done].
  by destruct (Str.char_isspace c).
Qed.

(** Trimming and upper-casing commute. *)
Lemma strip_upper (s : string) : Str.strip (Str.upper s) = Str.upper (Str.strip s).
Proof. unfold Str.strip. by rewrite lstrip_upper, rstrip_upper. Qed.

Lemma normalized_upper (s : string) : normalized (Str.upper s) = normalized s.
Proof. unfold normalized. by rewrite strip_upper, upper_twice. Qed.

Lemma post_body_appends (date token guess_raw : string) (STORE : Store) :
  appends_normalized (GameGuess.post_body date token) date token guess_raw STORE.
Proof.
  intros Hfin resp Hresp.
  destruct (select_daily_word_Some date) as (answer & Hsel & Hanswer).
  destruct (decide (Str.len (normalized guess_raw) = WORD_LENGTH
                    ∧ Str.isalpha (normalized guess_raw) = true)) as [[Hlen Halpha]|Hbad];
    [| by rewrite (post_body_invalid _ _ _ answer) in Hresp].
  rewrite (post_body_scored _ _ _ answer) in * by done. cbn [fst snd] in *.
  injection Hresp as <-. cbn [GuessResponse.feedback].
  rewrite !(status_get_eq _ _ answer) by done. cbn [snd].
  do 2 eexists. split; [| split; [done | split; [done |]]].
  - rewrite current_write_state. unfold outcome_of.
    destruct (all_green _); [done |]. by destruct (bool_decide _).
  - rewrite current_write_state. unfold status_payload, outcome_of.
    cbn [StatusResponse.guesses].
    destruct (all_green _); [| destruct (bool_decide _)];
      cbn [fst snd State.attempts]; by rewrite fmap_app.
Qed.

Lemma post_appends (date token guess_raw : string) (STORE : Store) :
  appends_normalized (GameGuess.post date token) date token guess_raw STORE.
Proof.
  intros Hfin resp. rewrite post_eq.
  destruct (GuessRequestSchema.guess_validate guess_raw); [| done].
  by apply post_body_appends.
Qed.

(** C10, amended. For a guess made of ASCII characters: the three checks
    accept it whenever they accept its upper-cased form, and the guess is
    then answered as its upper-cased form is, with the same store; the
    method as written answers the two alike in every case.  An accepted
    guess of a game that is not finished is appended in its trimmed,
    upper-cased form, and [GameStatus.get] then lists that form after the
    guesses it listed before: so for the method as written, which trims a
    padded guess, and for the method as registered, where the schema lets
    through only guesses that have nothing to trim. *)
Theorem C10_ascii_guess_is_normalized (date token guess_raw : string) (STORE : Store) :
  str_isascii guess_raw = true →
  (Unicode.accepted (Unicode.upper (Unicode.of_string guess_raw)) = true →
   Unicode.accepted (Unicode.of_string guess_raw) = true)
  ∧ ((∃ resp, (GameGuess.post date token (Str.upper guess_raw) STORE).2 = Return resp) →
     GameGuess.post date token guess_raw STORE
     = GameGuess.post date token (Str.upper guess_raw) STORE)
  ∧ GameGuess.post_body date token guess_raw STORE
    = GameGuess.post_body date token (Str.upper guess_raw) STORE
  ∧ appends_normalized (GameGuess.post_body date token) date token guess_raw STORE
  ∧ appends_normalized (GameGuess.post date token) date token guess_raw STORE
  ∧ (∀ resp, (GameGuess.post date token guess_raw STORE).2 = Return resp →
       Str.strip guess_raw = guess_raw).
Proof.
  intros Hascii.
  assert (GuessRequestSchema.guess_validate (Str.upper guess_raw)
          = GuessRequestSchema.guess_validate guess_raw) as Hsame.
  { unfold GuessRequestSchema.guess_validate. by rewrite len_upper, isalpha_upper. }
  assert (GameGuess.post_body date token guess_raw STORE
          = GameGuess.post_body date token (Str.upper guess_raw) STORE) as Hbody.
  { apply post_body_normalized. by rewrite normalized_upper. }
  split; [| split; [| split; [done | split; [| split]]]].
  - rewrite upper_of_string by done. unfold Unicode.accepted.
    destruct (checks_of_string _ (str_isascii_upper _ Hascii)) as (-> & _ & _).
    destruct (checks_of_string _ Hascii) as (-> & Hschema & Hmethod).
    rewrite Hsame.
    destruct (GuessRequestSchema.guess_validate guess_raw) eqn:Hv; [| done].
    intros _. destruct (validated_normalized _ Hv) as (_ & Hlen & Halpha).
    rewrite (proj2 Hmethod (conj Hlen Halpha)).
    pose proof (load_eq guess_raw) as Hload. unfold GuessRequestSchema.load in Hload.
    rewrite Hv in Hload.
    destruct (GuessRequestSchema.validate_guess guess_raw) eqn:Hm; [done |].
    by rewrite (proj2 Hschema eq_refl).
  - intros _. by rewrite !post_eq, Hsame, Hbody.
  - apply post_body_appends.
  - apply post_appends.
  - intros resp. rewrite post_eq.
    destruct (GuessRequestSchema.guess_validate guess_raw) eqn:Hv; [| done].
    intros _. apply guess_validate_spec in Hv as [_ Halpha]. by apply strip_alpha.
Qed.

Lemma C10_ascii_guess_is_normalized_witness :
  GameGuess.post day "tok" "mArine" four_misses
  = GameGuess.post day "tok" "MARINE" four_misses
  ∧ GameGuess.post_body day "tok" " mArine " four_misses
    = GameGuess.post_body day "tok" " MARINE " four_misses
  ∧ ∃ before after,
      State.attempts
        (current (GameGuess.post_body day "tok" " mArine " four_misses).1 "tok" day)
      = State.attempts (current four_misses "tok" day)
          ++ [ {| Entry.guess := "MARINE";
                  Entry.feedback := [grey; grey; yellow; yellow; grey; grey] |} ]
      ∧ (GameStatus.get day "tok" four_misses).2 = Return before
      ∧ (GameStatus.get day "tok"
           (GameGuess.post_body day "tok" " mArine " four_misses).1).2 = Return after
      ∧ StatusResponse.guesses after = StatusResponse.guesses before ++ ["MARINE"].
Proof.
  split; [| split].
  - destruct (C10_ascii_guess_is_normalized day "tok" "mArine" four_misses)
      as (_ & Hupper & _); [vm_compute; reflexivity |].
    apply Hupper. eexists. vm_compute. reflexivity.
  - destruct (C10_ascii_guess_is_normalized day "tok" " mArine " four_misses)
      as (_ & _ & Hbody & _); [vm_compute; reflexivity |].
    exact Hbody.
  - destruct (C10_ascii_guess_is_normalized day "tok" " mArine " four_misses)
      as (_ & _ & _ & Happends & _); [vm_compute; reflexivity |].
    apply (Happends
             ltac:(vm_compute; reflexivity)
             {| GuessResponse.feedback := [grey; grey; yellow; yellow; grey; grey];
                GuessResponse.attempts_used := 5;
                GuessResponse.max_attempts := MAX_ATTEMPTS;
                GuessResponse.status := "lost";
                GuessResponse.message := "No attempts left. The word was BRIGHT." |}).
    vm_compute. reflexivity.
Defined.

(** ** The handlers when the clock is read twice *)

(** Within one day the handlers are those of [GameStatus] and [GameGuess]. *)
Lemma two_clocks_same_day (date token guess_raw : string) (STORE : Store) :
  TwoClocks.get date date token STORE = GameStatus.get date token STORE
  ∧ TwoClocks.post_body date date token guess_raw STORE
    = GameGuess.post_body date token guess_raw STORE
  ∧ TwoClocks.post date date token guess_raw STORE
    = GameGuess.post date token guess_raw STORE.
Proof. done. Qed.

Lemma two_clocks_get_store (date state_date token : string) (STORE : Store) :
  (TwoClocks.get date state_date token STORE).1
  = (get_state_for_today state_date token STORE).1.
Proof.
  destruct (select_daily_word_Some date) as (answer & Hsel & _).
  unfold TwoClocks.get. rewrite Hsel.
  by destruct (get_state_for_today state_date token STORE).
Qed.

(** The answer is the one of the day the handler read, the record the one
    of the day [get_state_for_today] read. *)
Lemma two_clocks_post_body_eq (date state_date token guess_raw answer : string)
    (STORE : Store) :
  select_daily_word date = Some answer →
  Str.len answer = WORD_LENGTH →
  let state := current STORE token state_date in
  let STORE1 := (get_state_for_today state_date token STORE).1 in
  let feedback := spec_score (normalized guess_raw) answer in
  let attempts :=
    State.attempts state
      ++ [ {| Entry.guess := normalized guess_raw; Entry.feedback := feedback |} ] in
  let o := outcome_of answer state attempts feedback in
  TwoClocks.post_body date state_date token guess_raw STORE
  = if State.finished state then (STORE1, Return (finished_response state))
    else if decide (Str.len (normalized guess_raw) = WORD_LENGTH
                    ∧ Str.isalpha (normalized guess_raw) = true)
    then (write_state state_date token o.1.1 STORE1,
          Return {| GuessResponse.feedback := feedback;
                    GuessResponse.attempts_used := length attempts;
                    GuessResponse.max_attempts := MAX_ATTEMPTS;
                    GuessResponse.status := o.1.2;
                    GuessResponse.message := o.2 |})
    else (STORE1, Raise (ValidationError "Guess must be exactly 6 letters.")).
Proof.
  intros Hsel Hanswer. cbn zeta.
  unfold TwoClocks.post_body. rewrite Hsel.
  rewrite <- get_state_snd.
  destruct (get_state_for_today state_date token STORE) as [STORE1 state].
  cbn [fst snd]. destruct (State.finished state) eqn:Hfin; [done |].
  fold (normalized guess_raw).
  case_decide as Hok.
  - destruct Hok as [Hlen Halpha].
    rewrite Halpha, bool_decide_eq_true_2 by done. cbn [negb orb].
    rewrite (score_guess_spec_score _ _ Hlen Hanswer).
    unfold outcome_of. rewrite Hfin.
    destruct (all_green (spec_score (normalized guess_raw) answer)); [done |].
    by destruct (bool_decide _).
  - destruct (negb (bool_decide (Str.len (normalized guess_raw) = WORD_LENGTH))
              || negb (Str.isalpha (normalized guess_raw))) eqn:Hchk; [done |].
    apply orb_false_iff in Hchk as [Hlen Halpha].
    apply negb_false_iff in Hlen, Halpha. apply bool_decide_eq_true in Hlen.
    by destruct Hok.
Qed.

Lemma two_clocks_post_eq (date state_date token guess_raw : string) (STORE : Store) :
  TwoClocks.post date state_date token guess_raw STORE
  = if GuessRequestSchema.guess_validate guess_raw
    then TwoClocks.post_body date state_date token guess_raw STORE
    else (STORE, Raise (ValidationError "Invalid value.")).
Proof.
  unfold TwoClocks.post, blp_arguments. rewrite load_eq.
  by destruct (GuessRequestSchema.guess_validate guess_raw).
Qed.

Lemma record_good_fresh : record_good State.fresh.
Proof.
  split; [apply record_ok_fresh | split; [apply flags_ok_fresh | apply Forall_nil_2]].
Qed.

Lemma record_good_current (STORE : Store) (token date : string) :
  store_good STORE → record_good (current STORE token date).
Proof.
  intros Hgood. unfold current.
  destruct (record_at STORE token date) as [state|] eqn:Hrec; simpl.
  - by apply (Hgood token date).
  - apply record_good_fresh.
Qed.

Lemma store_good_get_state (date token : string) (STORE : Store) :
  store_good STORE → store_good (get_state_for_today date token STORE).1.
Proof.
  intros Hgood t d state. rewrite get_state_record_at.
  case_decide as Hk; [| apply Hgood]. intros [= <-]. by apply record_good_current.
Qed.

Lemma store_good_post_body (date state_date token guess_raw : string) (STORE : Store) :
  store_good STORE →
  store_good (TwoClocks.post_body date state_date token guess_raw STORE).1.
Proof.
  intros Hgood.
  destruct (select_daily_word_Some date) as (answer & Hsel & Hanswer).
  rewrite (two_clocks_post_body_eq _ _ _ _ answer) by done.
  destruct (State.finished (current STORE token state_date)) eqn:Hfin;
    [by apply store_good_get_state |].
  case_decide as Hok; [| by apply store_good_get_state].
  destruct Hok as [Hlen Halpha]. cbn [fst].
  intros t d state. rewrite record_at_write_state.
  case_decide as Hk; [| by apply store_good_get_state]. intros [= <-].
  destruct (record_good_current STORE token state_date Hgood) as (Hrec & Hflags & Hall).
  set (e := {| Entry.guess := normalized guess_raw;
               Entry.feedback := spec_score (normalized guess_raw) answer |}).
  split; [| split].
  - by apply (record_ok_outcome answer (current STORE token state_date) e).
  - by apply (flags_ok_outcome answer (current STORE token state_date) e).
  - rewrite outcome_of_attempts. apply Forall_app. split; [done |].
    apply Forall_singleton. exists date, answer. cbn [Entry.guess Entry.feedback e].
    split; [done |]. split; [done |]. split; [done |].
    split; [apply upper_twice | by apply score_guess_spec_score].
Qed.

Lemma reachable_store_good (STORE : Store) : TwoClocks.reachable STORE → store_good STORE.
Proof.
  induction 1 as [|date state_date token STORE _ IH
                  |date state_date token guess_raw STORE _ IH].
  - intros token date state. unfold record_at. by rewrite lookup_empty.
  - rewrite two_clocks_get_store. by apply store_good_get_state.
  - rewrite two_clocks_post_eq.
    destruct (GuessRequestSchema.guess_validate guess_raw); [| done].
    by apply store_good_post_body.
Qed.

(** A store produced without a request across midnight is one of those. *)
Lemma reachable_two_clocks (STORE : Store) : reachable STORE → TwoClocks.reachable STORE.
Proof.
  induction 1 as [|date token STORE _ IH|date token guess_raw STORE _ IH].
  - apply TwoClocks.from_empty.
  - by apply (TwoClocks.by_status date date).
  - by apply (TwoClocks.by_guess date date).
Qed.

(** A guess served across midnight is scored against the answer of the day
    that ended and recorded under the day that began. *)
Example across_midnight_record :
  select_daily_word "20240101" = Some "BRIGHT"
  ∧ select_daily_word "20240102" = Some "ANCHOR"
  ∧ record_at across_midnight "tok" "20240101" = None
  ∧ record_at across_midnight "tok" "20240102"
    = Some {| State.attempts :=
                [ {| Entry.guess := "BRIGHT";
                     Entry.feedback := [green; green; green; green; green; green] |} ];
              State.finished := true;
              State.won := true |}.
Proof. repeat split; vm_compute; reflexivity. Qed.

(** X7. Every attempt held by a store the endpoints can produce, whatever
    the clock read at each of its two readings, is a guess of [WORD_LENGTH]
    upper-case letters together with a feedback of [WORD_LENGTH] colours,
    the one [score_guess] gives the guess against the answer of a day: the
    day the handler read when it served the guess. *)
Theorem stored_attempts_are_scored (STORE : Store) (token state_date : string)
    (state : State.t) (e : Entry.t) :
  TwoClocks.reachable STORE → record_at STORE token state_date = Some state →
  e ∈ State.attempts state →
  Str.len (Entry.guess e) = WORD_LENGTH
  ∧ Str.isalpha (Entry.guess e) = true
  ∧ Str.upper (Entry.guess e) = Entry.guess e
  ∧ length (Entry.feedback e) = WORD_LENGTH
  ∧ ∃ date answer, select_daily_word date = Some answer
      ∧ score_guess (Entry.guess e) answer = Some (Entry.feedback e).
Proof.
  intros Hreach Hrec He.
  destruct (reachable_store_good STORE Hreach token state_date state Hrec) as (_ & _ & Hall).
  rewrite Forall_forall in Hall.
  destruct (Hall e He) as (date & answer & Hsel & Hlen & Halpha & Hupper & Hscore).
  split; [done |]. split; [done |]. split; [done |]. split; [| by eauto].
  destruct (select_daily_word_Some date) as (answer' & Hsel' & Hanswer).
  assert (answer' = answer) as -> by congruence.
  rewrite (score_guess_spec_score _ _ Hlen Hanswer) in Hscore. injection Hscore as <-.
  unfold spec_score. by rewrite length_fmap, length_seq.
Qed.

Lemma stored_attempts_are_scored_witness :
  Str.len "BRIGHT" = WORD_LENGTH
  ∧ Str.isalpha "BRIGHT" = true
  ∧ Str.upper "BRIGHT" = "BRIGHT"
  ∧ length [green; green; green; green; green; green] = WORD_LENGTH
  ∧ ∃ date answer, select_daily_word date = Some answer
      ∧ score_guess "BRIGHT" answer = Some [green; green; green; green; green; green].
Proof.
  apply (stored_attempts_are_scored across_midnight "tok" "20240102"
           {| State.attempts :=
                [ {| Entry.guess := "BRIGHT";
                     Entry.feedback := [green; green; green; green; green; green] |} ];
              State.finished := true;
              State.won := true |}
           {| Entry.guess := "BRIGHT";
              Entry.feedback := [green; green; green; green; green; green] |}).
  - apply TwoClocks.by_guess, TwoClocks.from_empty.
  - vm_compute. reflexivity.
  - apply list_elem_of_here.
Defined.

(** X8. In a store the endpoints can produce, whatever the clock read at
    each of its two readings, the flags of a record say what its attempts
    say: it is finished exactly when it is won or holds [MAX_ATTEMPTS]
    attempts, and won exactly when its last attempt is all green, that is
    when the last guess is the answer it was scored against, the answer of
    the day the handler read. *)
Theorem flags_follow_attempts (STORE : Store) (token state_date : string)
    (state : State.t) :
  TwoClocks.reachable STORE → record_at STORE token state_date = Some state →
  (State.finished state = true
   ↔ State.won state = true ∨ length (State.attempts state) = MAX_ATTEMPTS)
  ∧ (State.won state = true
     ↔ ∃ e, last (State.attempts state) = Some e ∧ all_green (Entry.feedback e) = true)
  ∧ (State.won state = true → ∃ e, last (State.attempts state) = Some e)
  ∧ (∀ e, last (State.attempts state) = Some e →
       ∃ date answer, select_daily_word date = Some answer
         ∧ score_guess (Entry.guess e) answer = Some (Entry.feedback e)
         ∧ (State.won state = true ↔ Entry.guess e = answer)).
Proof.
  intros Hreach Hrec.
  destruct (reachable_store_good STORE Hreach token state_date state Hrec)
    as (_ & [Hfin Hwon] & Hall).
  split; [done |]. split; [done |]. split.
  { intros (e & He & _)%Hwon. eauto. }
  intros e He. rewrite Forall_forall in Hall.
  destruct (Hall e) as (date & answer & Hsel & Hlen & _ & _ & Hscore).
  { rewrite last_lookup in He. apply list_elem_of_lookup. eauto. }
  destruct (select_daily_word_Some date) as (answer' & Hsel' & Hanswer).
  assert (answer' = answer) as -> by congruence.
  exists date, answer. split; [done |]. split; [done |].
  rewrite <- (all_green_score _ _ _ Hlen Hanswer Hscore), Hwon.
  split; [| by eauto]. intros (e' & He' & Hgreen). congruence.
Qed.

Lemma flags_follow_attempts_witness :
  let state := {| State.attempts :=
                    [ {| Entry.guess := "BRIGHT";
                         Entry.feedback := [green; green; green; green; green; green] |} ];
                  State.finished := true;
                  State.won := true |} in
  (State.finished state = true
   ↔ State.won state = true ∨ length (State.attempts state) = MAX_ATTEMPTS)
  ∧ (State.won state = true
     ↔ ∃ e, last (State.attempts state) = Some e ∧ all_green (Entry.feedback e) = true)
  ∧ (State.won state = true → ∃ e, last (State.attempts state) = Some e)
  ∧ (∀ e, last (State.attempts state) = Some e →
       ∃ date answer, select_daily_word date = Some answer
         ∧ score_guess (Entry.guess e) answer = Some (Entry.feedback e)
         ∧ (State.won state = true ↔ Entry.guess e = answer)).
Proof.
  apply (flags_follow_attempts across_midnight "tok" "20240102").
  - apply TwoClocks.by_guess, TwoClocks.from_empty.
  - vm_compute. reflexivity.
Defined.

(** ** The outcomes of an ASCII guess *)

(** X9. A guess made of ASCII characters never ends in an [IndexError] or a
    [ValueError]: the method as written either answers or raises its own
    [ValidationError], and the method as registered either answers or is
    refused by the schema; the check of the method itself can then no
    longer fail, as none of the three checks does once the validator of the
    field has accepted the guess.  (A letter outside ASCII can make it
    fail, see [sharp_s_raises].) *)
Theorem post_outcomes (date token guess_raw : string) (STORE : Store) :
  str_isascii guess_raw = true →
  ((∃ resp, (GameGuess.post_body date token guess_raw STORE).2 = Return resp)
   ∨ (GameGuess.post_body date token guess_raw STORE).2
     = Raise (ValidationError "Guess must be exactly 6 letters."))
  ∧ ((∃ resp, (GameGuess.post date token guess_raw STORE).2 = Return resp)
     ∨ (GameGuess.post date token guess_raw STORE).2
       = Raise (ValidationError "Invalid value."))
  ∧ (Unicode.guess_validate (Unicode.of_string guess_raw) = true →
     Unicode.validate_guess (Unicode.of_string guess_raw) = true
     ∧ Unicode.method_check (Unicode.of_string guess_raw) = true).
Proof.
  intros Hascii.
  destruct (select_daily_word_Some date) as (answer & Hsel & Hanswer).
  assert (State.finished (current STORE token date) = false →
          Str.len (normalized guess_raw) = WORD_LENGTH
          ∧ Str.isalpha (normalized guess_raw) = true →
          ∃ resp, (GameGuess.post_body date token guess_raw STORE).2 = Return resp)
    as Hscored.
  { intros Hfin [Hlen Halpha]. rewrite (post_body_scored _ _ _ answer) by done. eauto. }
  assert (State.finished (current STORE token date) = true →
          ∃ resp, (GameGuess.post_body date token guess_raw STORE).2 = Return resp)
    as Hdone.
  { intros Hfin. rewrite (post_body_finished _ _ _ answer) by done. eauto. }
  split; [| split].
  - destruct (State.finished (current STORE token date)) eqn:Hfin; [left; by apply Hdone |].
    destruct (decide (Str.len (normalized guess_raw) = WORD_LENGTH
                      ∧ Str.isalpha (normalized guess_raw) = true)) as [Hok|Hbad].
    + left. by apply Hscored.
    + right. by rewrite (post_body_invalid _ _ _ answer).
  - rewrite post_eq.
    destruct (GuessRequestSchema.guess_validate guess_raw) eqn:Hv; [| by right].
    left. destruct (validated_normalized _ Hv) as (_ & Hlen & Halpha).
    destruct (State.finished (current STORE token date)) eqn:Hfin;
      [by apply Hdone | by apply Hscored].
  - destruct (checks_of_string _ Hascii) as (-> & Hschema & Hmethod). intros Hv.
    destruct (validated_normalized _ Hv) as (_ & Hlen & Halpha).
    split; [| by apply Hmethod].
    apply Hschema. pose proof (load_eq guess_raw) as Hload.
    unfold GuessRequestSchema.load in Hload. rewrite Hv in Hload.
    by destruct (GuessRequestSchema.validate_guess guess_raw).
Qed.

Lemma post_outcomes_witness :
  ((∃ resp, (GameGuess.post_body day "tok" " mArine " four_misses).2 = Return resp)
   ∨ (GameGuess.post_body day "tok" " mArine " four_misses).2
     = Raise (ValidationError "Guess must be exactly 6 letters."))
  ∧ ((∃ resp, (GameGuess.post day "tok" " mArine " four_misses).2 = Return resp)
     ∨ (GameGuess.post day "tok" " mArine " four_misses).2
       = Raise (ValidationError "Invalid value."))
  ∧ (Unicode.guess_validate (Unicode.of_string " mArine ") = true →
     Unicode.validate_guess (Unicode.of_string " mArine ") = true
     ∧ Unicode.method_check (Unicode.of_string " mArine ") = true).
Proof.
  apply (post_outcomes day "tok" " mArine " four_misses). vm_compute. reflexivity.
Defined.

(** X17. Behind the schema a guess made of ASCII characters is refused
    exactly when, as it was sent, it is not [WORD_LENGTH] letters, whether
    the game is finished or not: the three checks accept it exactly when
    the validator of the field does.  A refused guess leaves the whole
    store as it was: no record is created and none is changed.  (With a
    letter outside ASCII the method can still refuse what the schema let
    through, see [sharp_s_raises].) *)
Theorem refused_guess (date token guess_raw : string) (STORE : Store) :
  str_isascii guess_raw = true →
  ((∃ e, (GameGuess.post date token guess_raw STORE).2 = Raise e)
   ↔ ¬ (Str.len guess_raw = WORD_LENGTH ∧ Str.isalpha guess_raw = true))
  ∧ (Unicode.accepted (Unicode.of_string guess_raw) = true
     ↔ Str.len guess_raw = WORD_LENGTH ∧ Str.isalpha guess_raw = true)
  ∧ ∀ e, (GameGuess.post date token guess_raw STORE).2 = Raise e →
      (GameGuess.post date token guess_raw STORE).1 = STORE.
Proof.
  intros Hascii.
  assert (Unicode.accepted (Unicode.of_string guess_raw) = true
          ↔ Str.len guess_raw = WORD_LENGTH ∧ Str.isalpha guess_raw = true) as Hchecks.
  { rewrite <- guess_validate_spec. unfold Unicode.accepted.
    destruct (checks_of_string _ Hascii) as (-> & Hschema & Hmethod).
    destruct (GuessRequestSchema.guess_validate guess_raw) eqn:Hv; [| done].
    destruct (validated_normalized _ Hv) as (_ & Hlen & Halpha).
    rewrite (proj2 Hmethod (conj Hlen Halpha)).
    pose proof (load_eq guess_raw) as Hload. unfold GuessRequestSchema.load in Hload.
    rewrite Hv in Hload.
    destruct (GuessRequestSchema.validate_guess guess_raw) eqn:Hm; [done |].
    by rewrite (proj2 Hschema eq_refl). }
  cut (((∃ e, (GameGuess.post date token guess_raw STORE).2 = Raise e)
        ↔ ¬ (Str.len guess_raw = WORD_LENGTH ∧ Str.isalpha guess_raw = true))
       ∧ ∀ e, (GameGuess.post date token guess_raw STORE).2 = Raise e →
           (GameGuess.post date token guess_raw STORE).1 = STORE).
  { intros [Hiff Hstore]. done. }
  destruct (select_daily_word_Some date) as (answer & Hsel & Hanswer).
  rewrite post_eq, <- guess_validate_spec.
  destruct (GuessRequestSchema.guess_validate guess_raw) eqn:Hv.
  - destruct (validated_normalized _ Hv) as (_ & Hlen & Halpha).
    assert (∃ resp, (GameGuess.post_body date token guess_raw STORE).2 = Return resp)
      as [resp Hresp].
    { destruct (State.finished (current STORE token date)) eqn:Hfin.
      - rewrite (post_body_finished _ _ _ answer) by done. eauto.
      - rewrite (post_body_scored _ _ _ answer) by done. eauto. }
    rewrite Hresp. split; [split; [by intros [e [=]] | done] | by intros e [=]].
  - cbn [fst snd]. split; [split; [done | eauto] | done].
Qed.

Lemma refused_guess_witness :
  ((∃ e, (GameGuess.post day "tok" " OCEANS " four_misses).2 = Raise e)
   ↔ ¬ (Str.len " OCEANS " = WORD_LENGTH ∧ Str.isalpha " OCEANS " = true))
  ∧ (Unicode.accepted (Unicode.of_string " OCEANS ") = true
     ↔ Str.len " OCEANS " = WORD_LENGTH ∧ Str.isalpha " OCEANS " = true)
  ∧ ∀ e, (GameGuess.post day "tok" " OCEANS " four_misses).2 = Raise e →
      (GameGuess.post day "tok" " OCEANS " four_misses).1 = four_misses.
Proof.
  apply (refused_guess day "tok" " OCEANS " four_misses). vm_compute. reflexivity.
Defined.
